(** * ODXProxy MCP server: glossary enrichment, resource publication and
      the lookup tool handlers

    A shallow embedding of [src/glossary.ts] ([loadGlossary]) and of
    [src/server.ts] ([OdxMCPServer]: the [odx_config], [get_companies] and
    [get_partners] handlers and [loadGlossaries]).

    JavaScript objects are shared by reference, so glossary entries live in
    a store indexed by references and a catalog is a list of references.
    An [async] function is a computation over the world (store, remote
    call trace, console, resource registrations) that either resolves or
    rejects.  The remote client ([@terrakernel/odxproxy-client-js]) is an
    external collaborator: its replies are a parameter of the development,
    a function of the calls issued so far and of the current call. *)

From Stdlib Require Import String Ascii List ZArith Lia Bool.
From Stdlib Require Import DecimalString FinFun.
Import ListNotations.
Set Warnings "-register-all".
Open Scope list_scope.
Open Scope string_scope.

(* ================================================================== *)
(** ** JavaScript values and [JSON.stringify] *)
(* ================================================================== *)

Module Js.

(** The values the handlers build and serialise.  Numbers are the integers
    (record ids, user ids); the only falsy one is [0]. *)
Inductive Value : Type :=
| VUndefined
| VNull
| VBool (b : bool)
| VNum (n : Z)
| VStr (s : string)
| VArr (items : list Value)
| VObj (props : list (string * Value)).

(** Truthiness tests of the handlers, [if (id)] and [if (name)]: the
    value when it is present and truthy.  [0] and the empty string are
    falsy, as is a missing input. *)
Definition truthy_num (x : option Z) : option Z :=
  match x with
  | Some n => if Z.eqb n 0 then None else Some n
  | None => None
  end.

Definition truthy_str (x : option string) : option string :=
  match x with
  | Some EmptyString => None
  | Some (String c r) => Some (String c r)
  | None => None
  end.

(** [String.prototype.toLowerCase] on the ASCII range (the range the
    email schema admits). *)
Definition lower_ascii (c : ascii) : ascii :=
  let n := nat_of_ascii c in
  if andb (Nat.leb 65 n) (Nat.leb n 90) then ascii_of_nat (n + 32) else c.

Fixpoint toLowerCase (s : string) : string :=
  match s with
  | EmptyString => EmptyString
  | String c r => String (lower_ascii c) (toLowerCase r)
  end.

(** *** Serialisation *)

Definition str1 (c : ascii) : string := String c EmptyString.
Definition dquote : ascii := ascii_of_nat 34.
Definition backslash : ascii := ascii_of_nat 92.
Definition newline : string := str1 (ascii_of_nat 10).

Definition hex_digit (n : nat) : ascii :=
  if Nat.ltb n 10 then ascii_of_nat (48 + n) else ascii_of_nat (87 + n).

(** One character of [QuoteJSONString]. *)
Definition escape_char (c : ascii) : string :=
  let n := nat_of_ascii c in
  if Nat.eqb n 34 then String backslash (str1 dquote)
  else if Nat.eqb n 92 then String backslash (str1 backslash)
  else if Nat.eqb n 8 then String backslash "b"
  else if Nat.eqb n 9 then String backslash "t"
  else if Nat.eqb n 10 then String backslash "n"
  else if Nat.eqb n 12 then String backslash "f"
  else if Nat.eqb n 13 then String backslash "r"
  else if Nat.ltb n 32 then
    String backslash
      ("u00" ++ str1 (hex_digit (Nat.div n 16)) ++ str1 (hex_digit (Nat.modulo n 16)))
  else str1 c.

Fixpoint escape (s : string) : string :=
  match s with
  | EmptyString => EmptyString
  | String c r => escape_char c ++ escape r
  end.

Definition QuoteJSONString (s : string) : string :=
  String dquote (escape s ++ str1 dquote).

Definition string_of_Z (n : Z) : string :=
  NilZero.string_of_int (Z.to_int n).

Fixpoint join (sep : string) (l : list string) : string :=
  match l with
  | [] => EmptyString
  | [x] => x
  | x :: r => x ++ sep ++ join sep r
  end.

(** Brackets around the serialised members, as [SerializeJSONObject] and
    [SerializeJSONArray] lay them out. *)
Definition wrap (gap stepback indent : string) (open close : string)
    (partial : list string) : string :=
  match partial with
  | [] => open ++ close
  | _ =>
      match gap with
      | EmptyString => open ++ join "," partial ++ close
      | _ =>
          open ++ newline ++ indent
            ++ join ("," ++ newline ++ indent) partial
            ++ newline ++ stepback ++ close
      end
  end.

(** [SerializeJSONProperty]: [None] is JavaScript's [undefined] result.
    An object member whose value is [undefined] is left out; an array item
    that is [undefined] is written [null]. *)
Fixpoint SerializeJSONProperty (gap indent : string) (v : Value)
    {struct v} : option string :=
  match v with
  | VUndefined => None
  | VNull => Some "null"
  | VBool true => Some "true"
  | VBool false => Some "false"
  | VNum n => Some (string_of_Z n)
  | VStr s => Some (QuoteJSONString s)
  | VArr items =>
      let indent' := indent ++ gap in
      let partial :=
        map (fun x =>
               match SerializeJSONProperty gap indent' x with
               | Some s => s
               | None => "null"
               end) items in
      Some (wrap gap indent indent' "[" "]" partial)
  | VObj props =>
      let indent' := indent ++ gap in
      let colon := match gap with EmptyString => ":" | _ => ": " end in
      let partial :=
        flat_map (fun kv =>
               match SerializeJSONProperty gap indent' (snd kv) with
               | Some s => [QuoteJSONString (fst kv) ++ colon ++ s]
               | None => []
               end) props in
      Some (wrap gap indent indent' "{" "}" partial)
  end.

Fixpoint spaces (n : nat) : string :=
  match n with
  | O => EmptyString
  | S k => String " " (spaces k)
  end.

(** [JSON.stringify(value, null, space)] for a numeric [space]. *)
Definition JSON_stringify (value : Value) (space : nat) : option string :=
  SerializeJSONProperty (spaces (Nat.min 10 space)) EmptyString value.

(** [x ?? d]. *)
Definition nullish {A : Type} (x : option A) (d : A) : A :=
  match x with
  | Some a => a
  | None => d
  end.

End Js.

Import Js.
Infix "??" := nullish (at level 45, left associativity).

(* ================================================================== *)
(** ** The remote client (external collaborator) *)
(* ================================================================== *)

(** The options object [{context: {tz: ...}}]. *)
Record CallOptions : Type := { context_tz : string }.

(** A call issued to the remote client. *)
Inductive RemoteCall : Type :=
| call_fields_get (model : string) (options : CallOptions)
| call_search_read (model : string) (domain : list Value) (options : CallOptions).

(** How a promise settles; a rejection carries the thrown value. *)
Inductive Outcome (A : Type) : Type :=
| Resolved (a : A)
| Rejected (reason : Value).
Arguments Resolved {A} a.
Arguments Rejected {A} reason.

(** [Record<string, any>]: an object's members in insertion order. *)
Definition FieldMap : Type := list (string * Value).

Record FieldsGetResponse : Type := { fields_result : option FieldMap }.
Record SearchReadResponse : Type := { records_result : option (list Value) }.

(** The remote side: each reply is determined by the calls issued before
    it and by the call itself. *)
Record RemoteClient : Type := {
  reply_fields_get :
    list RemoteCall -> string -> CallOptions -> Outcome FieldsGetResponse;
  reply_search_read :
    list RemoteCall -> string -> list Value -> CallOptions ->
    Outcome SearchReadResponse
}.

(* ================================================================== *)
(** ** Data model ([glossary.ts], [server.ts]) *)
(* ================================================================== *)

(** [interface GlossaryEntry]; an optional member is an [option]. *)
Record GlossaryEntry : Type := {
  model : string;
  aliases : option (list string);
  category : option string;
  description : option string;
  extra_description : option string;
  available_actions : option (list string);
  model_specific_actions : option FieldMap;
  aliases_many2one_fields : option (list string);
  fields_source : option string;
  fields : option FieldMap;
  examples : option (list Value);
  hints : option (list string)
}.

(** [entry.fields = f]: every other member is kept. *)
Definition set_fields (e : GlossaryEntry) (f : FieldMap) : GlossaryEntry :=
  {| model := model e;
     aliases := aliases e;
     category := category e;
     description := description e;
     extra_description := extra_description e;
     available_actions := available_actions e;
     model_specific_actions := model_specific_actions e;
     aliases_many2one_fields := aliases_many2one_fields e;
     fields_source := fields_source e;
     fields := Some f;
     examples := examples e;
     hints := hints e |}.

(** [entry.fields_source === "dynamic"]. *)
Definition is_dynamic (e : GlossaryEntry) : bool :=
  match fields_source e with
  | Some s => String.eqb s "dynamic"
  | None => false
  end.

(** A reference to an entry object; [GlossaryEntry[]] is a list of them. *)
Definition Ref : Type := nat.
Definition Store : Type := Ref -> GlossaryEntry.

Definition store_set (h : Store) (r : Ref) (e : GlossaryEntry) : Store :=
  fun r' => if Nat.eqb r' r then e else h r'.

(** The descriptor handed to [registerResource]. *)
Record ResourceMetadata : Type := {
  meta_title : string;
  meta_description : string;
  meta_tags : list string;
  meta_examples : list Value;
  meta_parameters : FieldMap
}.

(** One accepted [registerResource] call; the read callback closes over
    the entry object, kept here as its reference. *)
Record Registration : Type := {
  reg_name : string;
  reg_uri : string;
  reg_metadata : ResourceMetadata;
  reg_entry : Ref
}.

(** [interface OdxInstanceInfo] and [interface OdxProxyClientInfo]. *)
Record OdxInstanceInfo : Type := {
  url : string;
  user_id : Z;
  db : string;
  api_key : string
}.

Record OdxProxyClientInfo : Type := {
  instance : OdxInstanceInfo;
  odx_api_key : string;
  gateway_url : option string
}.

(** A text block of a tool result and the result itself. *)
Record TextContent : Type := { type : string; text : option string }.
Record ToolResult : Type := { content : list TextContent }.

(** The arguments of the lookup tools, as the typed values a client can
    send.  What the input schema of [get_partners] admits among them is
    [partners_schema] below; the handlers themselves are defined on every
    value of these types. *)
Record CompaniesInput : Type := {
  companies_name : option string;
  companies_id : option Z
}.

Record PartnersInput : Type := {
  partners_id : option Z;
  partners_email : option string;
  partners_name : option string
}.

(* ================================================================== *)
(** ** The world and asynchronous computations *)
(* ================================================================== *)

(** What the code can observe or change: the entry objects, the calls
    issued to the remote client, the [console.error] lines (message and
    logged value), and the registrations the registrar accepted, each in
    order. *)
Record World : Type := {
  heap : Store;
  trace : list RemoteCall;
  console : list (string * Value);
  registered : list Registration
}.

Definition Async (A : Type) : Type := World -> Outcome A * World.

Definition ret {A : Type} (a : A) : Async A := fun w => (Resolved a, w).

Definition bind {A B : Type} (m : Async A) (k : A -> Async B) : Async B :=
  fun w =>
    match m w with
    | (Resolved a, w') => k a w'
    | (Rejected e, w') => (Rejected e, w')
    end.

(** [try { m } catch (error) { handler error }]. *)
Definition try_catch {A : Type} (m : Async A) (handler : Value -> Async A)
    : Async A :=
  fun w =>
    match m w with
    | (Resolved a, w') => (Resolved a, w')
    | (Rejected e, w') => handler e w'
    end.

Notation "x <- m ;; k" := (bind m (fun x => k))
  (at level 100, m at next level, right associativity).
Notation "m ;;; k" := (bind m (fun _ => k))
  (at level 100, right associativity).

(** [for (const x of l) { body x }]. *)
Fixpoint for_of {A : Type} (l : list A) (body : A -> Async unit) : Async unit :=
  match l with
  | [] => ret tt
  | x :: rest => body x ;;; for_of rest body
  end.

(** Reading an entry object, assigning its [fields], [console.error]
    and the recording of a remote call. *)
Definition read_entry (r : Ref) : Async GlossaryEntry :=
  fun w => (Resolved (heap w r), w).

Definition write_fields (r : Ref) (f : FieldMap) : Async unit :=
  fun w =>
    (Resolved tt,
     {| heap := store_set (heap w) r (set_fields (heap w r) f);
        trace := trace w;
        console := console w;
        registered := registered w |}).

Definition console_error (msg : string) (v : Value) : Async unit :=
  fun w =>
    (Resolved tt,
     {| heap := heap w;
        trace := trace w;
        console := (console w ++ [(msg, v)])%list;
        registered := registered w |}).

Definition record_call (c : RemoteCall) (w : World) : World :=
  {| heap := heap w;
     trace := (trace w ++ [c])%list;
     console := console w;
     registered := registered w |}.

(** The [Error] the registrar throws for a URI it already holds, kept as
    its message. *)
Definition already_registered (uri : string) : Value :=
  VStr ("Resource " ++ uri ++ " is already registered").

Definition holds_uri (regs : list Registration) (uri : string) : bool :=
  existsb (fun g => String.eqb (reg_uri g) uri) regs.

(** [this.server.registerResource(name, uri, metadata, callback)]: the
    registrar belongs to the MCP SDK.  It throws when it already holds the
    URI and otherwise keeps the registration; what is kept of it is the
    sequence of registrations it accepted. *)
Definition registerResource (name uri : string) (meta : ResourceMetadata)
    (entry : Ref) : Async unit :=
  fun w =>
    if holds_uri (registered w) uri then
      (Rejected (already_registered uri), w)
    else
      (Resolved tt,
       {| heap := heap w;
          trace := trace w;
          console := console w;
          registered :=
            (registered w
               ++ [{| reg_name := name; reg_uri := uri;
                      reg_metadata := meta; reg_entry := entry |}])%list |}).

(* ================================================================== *)
(** ** The input schema of [get_partners] *)
(* ================================================================== *)

(** [z.string().email()], the email pattern of the schema library, read
    without regard to case.  Before the only [@]: a non-empty local part
    of letters, digits and the characters _ ' + - and the dot, not
    starting with a dot and ending in a letter, a digit or one of _ + - .
    After it: one or more labels, each a letter or digit followed by
    letters, digits and hyphens and closed by a dot, then a last label of
    two or more letters.  Nowhere two dots in a row. *)
Definition in_range (lo hi : nat) (c : ascii) : bool :=
  andb (Nat.leb lo (nat_of_ascii c)) (Nat.leb (nat_of_ascii c) hi).

Definition is_char (n : nat) (c : ascii) : bool := Nat.eqb (nat_of_ascii c) n.

Definition is_letter (c : ascii) : bool :=
  orb (in_range 65 90 c) (in_range 97 122 c).

Definition is_alnum (c : ascii) : bool := orb (in_range 48 57 c) (is_letter c).

(** The three character classes of the pattern. *)
Definition is_local_char (c : ascii) : bool :=
  orb (is_alnum c)
    (orb (is_char 95 c)
       (orb (is_char 39 c) (orb (is_char 43 c) (orb (is_char 45 c) (is_char 46 c))))).

Definition is_local_last (c : ascii) : bool :=
  orb (is_alnum c) (orb (is_char 95 c) (orb (is_char 43 c) (is_char 45 c))).

Definition is_label_char (c : ascii) : bool := orb (is_alnum c) (is_char 45 c).

Fixpoint all_chars (p : ascii -> bool) (s : string) : bool :=
  match s with
  | EmptyString => true
  | String c r => andb (p c) (all_chars p r)
  end.

Fixpoint last_char (s : string) : option ascii :=
  match s with
  | EmptyString => None
  | String c EmptyString => Some c
  | String _ r => last_char r
  end.

Fixpoint has_double_dot (s : string) : bool :=
  match s with
  | String c ((String d _) as r) =>
      orb (andb (is_char 46 c) (is_char 46 d)) (has_double_dot r)
  | _ => false
  end.

(** The parts before and after the first occurrence of [sep]. *)
Fixpoint split_first (sep : nat) (s : string) : option (string * string) :=
  match s with
  | EmptyString => None
  | String c r =>
      if is_char sep c then Some (EmptyString, r)
      else match split_first sep r with
           | Some (a, b) => Some (String c a, b)
           | None => None
           end
  end.

(** The pieces between the occurrences of [sep]. *)
Fixpoint split_all (sep : nat) (s : string) : list string :=
  match s with
  | EmptyString => [EmptyString]
  | String c r =>
      if is_char sep c then EmptyString :: split_all sep r
      else match split_all sep r with
           | piece :: pieces => String c piece :: pieces
           | [] => [String c EmptyString]
           end
  end.

Definition local_part_ok (l : string) : bool :=
  match l with
  | EmptyString => false
  | String c _ =>
      andb (negb (is_char 46 c))
        (andb (all_chars is_local_char l)
           match last_char l with
           | Some z => is_local_last z
           | None => false
           end)
  end.

Definition label_ok (l : string) : bool :=
  match l with
  | EmptyString => false
  | String c r => andb (is_alnum c) (all_chars is_label_char r)
  end.

Definition top_level_ok (l : string) : bool :=
  andb (Nat.leb 2 (String.length l)) (all_chars is_letter l).

Definition domain_ok (d : string) : bool :=
  match rev (split_all 46 d) with
  | top :: ((_ :: _) as labels) =>
      andb (top_level_ok top) (forallb label_ok labels)
  | _ => false
  end.

Definition is_email (s : string) : bool :=
  match split_first 64 s with
  | Some (l, d) =>
      andb (negb (has_double_dot s)) (andb (local_part_ok l) (domain_ok d))
  | None => false
  end.

(** The input schema of [get_partners]: [id] any number, [email] an email
    when given, [name] any string. *)
Definition partners_schema (input : PartnersInput) : bool :=
  match partners_email input with
  | Some e => is_email e
  | None => true
  end.

(** The error of the tool registry for arguments the schema refuses
    (invalid params), kept as its code. *)
Definition invalid_params : Value := VObj [("code", VNum (-32602))].

(* ================================================================== *)
(** ** The program *)
(* ================================================================== *)

Definition opt_str (x : option string) : Value :=
  match x with
  | Some s => VStr s
  | None => VUndefined
  end.

Definition text_block (t : option string) : ToolResult :=
  {| content := [{| type := "text"; text := t |}] |}.

Section Program.

Variable client : RemoteClient.

(** [await fields_get(model, options)]: the call is recorded, the reply
    settles the promise. *)
Definition fields_get (m : string) (options : CallOptions)
    : Async FieldsGetResponse :=
  fun w =>
    (reply_fields_get client (trace w) m options,
     record_call (call_fields_get m options) w).

(** [await search_read(model, domain, options)]. *)
Definition search_read (m : string) (domain : list Value)
    (options : CallOptions) : Async SearchReadResponse :=
  fun w =>
    (reply_search_read client (trace w) m domain options,
     record_call (call_search_read m domain options) w).

(** *** [glossary.ts] *)

(** The body of the loop of [loadGlossary] for one entry. *)
Definition enrich_entry (entry : Ref) : Async unit :=
  e <- read_entry entry ;;
  if is_dynamic e then
    try_catch
      (res <- fields_get (model e) {| context_tz := "UTC" |} ;;
       write_fields entry (fields_result res ?? []))
      (fun error =>
         console_error ("Error fetching fields for model " ++ model e ++ ":")
           error)
  else ret tt.

Definition loadGlossary (glossary : list Ref) : Async (list Ref) :=
  for_of glossary enrich_entry ;;;
  ret glossary.

(** *** [server.ts] *)

(** The handler of the [odx_config] tool; [cfg] is [this.OdxConfig]. *)
Definition odx_config_settings (cfg : OdxProxyClientInfo) : Value :=
  VObj [ ("url", VStr (url (instance cfg)));
         ("database", VStr (db (instance cfg)));
         ("gateway", opt_str (gateway_url cfg));
         ("userUid", VNum (user_id (instance cfg))) ].

Definition odx_config (cfg : OdxProxyClientInfo) : Async ToolResult :=
  let settings := odx_config_settings cfg in
  ret (text_block (JSON_stringify settings 2)).

(** The registration made for one entry of the enriched glossary. *)
Definition glossary_metadata (e : GlossaryEntry) : ResourceMetadata :=
  {| meta_title := model e ++ " Glossary";
     meta_description := description e ?? EmptyString;
     meta_tags := ((category e ?? "odoo") :: (aliases e ?? []))%list;
     meta_examples := examples e ?? [];
     meta_parameters := [] |}.

Definition register_entry (entry : Ref) : Async unit :=
  e <- read_entry entry ;;
  registerResource ("glossary_" ++ model e) ("glossary://" ++ model e)
    (glossary_metadata e) entry.

(** [loadGlossaries]; [None] is a missing ([undefined]) argument. *)
Definition loadGlossaries (glossary : option (list Ref)) : Async unit :=
  enrichedGlossary <-
    match glossary with
    | Some g => loadGlossary g
    | None => ret []
    end ;;
  for_of enrichedGlossary register_entry.

(** The handler of [get_companies]. *)
Definition companies_domain (input : CompaniesInput) : list Value :=
  let domain := [] in
  let domain :=
    match truthy_str (companies_name input) with
    | Some name => (domain ++ [VArr [VStr "name"; VStr "ilike"; VStr name]])%list
    | None => domain
    end in
  let domain :=
    match truthy_num (companies_id input) with
    | Some id => (domain ++ [VArr [VStr "id"; VStr "="; VNum id]])%list
    | None => domain
    end in
  domain.

Definition get_companies (input : CompaniesInput) : Async ToolResult :=
  let domain := companies_domain input in
  results <- search_read "res.company" [VArr domain]
               {| context_tz := "Asia/Singapore" |} ;;
  ret (text_block (JSON_stringify (VArr (records_result results ?? [])) 2)).

(** The handler of [get_partners]: the filter chosen by the cascade of
    tests, or [None] on the branch that returns early. *)
Definition partners_domain (input : PartnersInput) : option (list Value) :=
  match truthy_num (partners_id input),
        truthy_str (partners_email input),
        truthy_str (partners_name input) with
  | Some id, _, _ =>
      Some [VArr [VStr "id"; VStr "="; VNum id]]
  | None, Some email, Some name =>
      Some [VStr "|";
            VArr [VStr "email"; VStr "="; VStr (toLowerCase email)];
            VArr [VStr "name"; VStr "ilike"; VStr name]]
  | None, Some email, None =>
      Some [VArr [VStr "email"; VStr "="; VStr (toLowerCase email)]]
  | None, None, Some name =>
      Some [VArr [VStr "name"; VStr "ilike"; VStr name]]
  | None, None, None => None
  end.

Definition get_partners (input : PartnersInput) : Async ToolResult :=
  match partners_domain input with
  | None => ret (text_block (Some "[]"))
  | Some domain =>
      partners <- search_read "res.partner" domain
                    {| context_tz := "Asia/Singapore" |} ;;
      ret (text_block
             (JSON_stringify (VArr (records_result partners ?? [])) 2))
  end.

End Program.

(* ================================================================== *)
(** ** The tool interface *)
(* ================================================================== *)

(** A call of the [get_partners] tool: the registry checks the arguments
    against the input schema and runs the handler only when they pass. *)
Definition tool_get_partners (client : RemoteClient) (input : PartnersInput)
    : Async ToolResult :=
  fun w =>
    if partners_schema input then get_partners client input w
    else (Rejected invalid_params, w).

(* ================================================================== *)
(** ** Worlds reached by one step of the enrichment loop *)
(* ================================================================== *)

Definition utc : CallOptions := {| context_tz := "UTC" |}.
Definition singapore : CallOptions := {| context_tz := "Asia/Singapore" |}.

(** The fetch issued for an entry. *)
Definition fetch_call (e : GlossaryEntry) : RemoteCall :=
  call_fields_get (model e) utc.

(** The diagnostic line of the [catch] block. *)
Definition fetch_diagnostic (e : GlossaryEntry) (error : Value)
    : string * Value :=
  ("Error fetching fields for model " ++ model e ++ ":", error).

(** After a rejected fetch for the entry at [r]: the call and the
    diagnostic are recorded, the store is as before. *)
Definition after_failure (r : Ref) (error : Value) (w : World) : World :=
  {| heap := heap w;
     trace := (trace w ++ [fetch_call (heap w r)])%list;
     console := (console w ++ [fetch_diagnostic (heap w r) error])%list;
     registered := registered w |}.

(** After a resolved fetch for the entry at [r]. *)
Definition after_success (r : Ref) (res : FieldsGetResponse) (w : World)
    : World :=
  {| heap := store_set (heap w) r (set_fields (heap w r) (fields_result res ?? []));
     trace := (trace w ++ [fetch_call (heap w r)])%list;
     console := console w;
     registered := registered w |}.

(** The registration [loadGlossaries] makes for the entry at [r]. *)
Definition registration_of (h : Store) (r : Ref) : Registration :=
  {| reg_name := "glossary_" ++ model (h r);
     reg_uri := "glossary://" ++ model (h r);
     reg_metadata := glossary_metadata (h r);
     reg_entry := r |}.

(** The registrar fed the registrations [new] one after the other when it
    holds [regs]: how the sequence ends and what it holds then. *)
Fixpoint register_run (regs new : list Registration)
    : Outcome unit * list Registration :=
  match new with
  | [] => (Resolved tt, regs)
  | g :: rest =>
      if holds_uri regs (reg_uri g) then
        (Rejected (already_registered (reg_uri g)), regs)
      else register_run (regs ++ [g])%list rest
  end.

(** The world after the enrichment loop has run over [glossary]. *)
Definition enriched (client : RemoteClient) (glossary : list Ref) (w : World)
    : World :=
  snd (for_of glossary (enrich_entry client) w).

(** The statement that a rejected fetch always leaves an empty [fields]:
    the entry at [r] is reached after the entries of [pre], its fetch is
    rejected, and [post] follows. *)
Definition failed_fetch_gives_empty_fields : Prop :=
  forall (client : RemoteClient) (pre post : list Ref) (w : World)
         (r : Ref) (error : Value),
    fields_source (heap (enriched client pre w) r) = Some "dynamic" ->
    reply_fields_get client (trace (enriched client pre w))
      (model (heap (enriched client pre w) r)) utc = Rejected error ->
    fields (heap (snd (loadGlossary client (pre ++ r :: post)%list w)) r)
      = Some [].

(** The statement that a provided [id] always wins in [get_partners]. *)
Definition provided_id_takes_precedence : Prop :=
  forall (id : Z) (email name : option string),
    partners_domain {| partners_id := Some id; partners_email := email;
                       partners_name := name |}
    = Some [VArr [VStr "id"; VStr "="; VNum id]].

(** The statement that a provided [email] and [name], with no [id],
    always give the disjunction. *)
Definition provided_email_and_name_give_disjunction : Prop :=
  forall (email name : string),
    is_email email = true ->
    partners_domain {| partners_id := None; partners_email := Some email;
                       partners_name := Some name |}
    = Some [VStr "|";
            VArr [VStr "email"; VStr "="; VStr (toLowerCase email)];
            VArr [VStr "name"; VStr "ilike"; VStr name]].

(** The statement that the [get_partners] tool treats an empty [email] as
    a missing one. *)
Definition empty_email_counts_as_absent : Prop :=
  forall (client : RemoteClient) (id : option Z) (name : option string)
         (w : World),
    tool_get_partners client
      {| partners_id := id; partners_email := Some EmptyString;
         partners_name := name |} w
    = tool_get_partners client
        {| partners_id := id; partners_email := None;
           partners_name := name |} w.

(** *** Concrete inputs used by the examples *)

Definition partner_entry : GlossaryEntry :=
  {| model := "res.partner"; aliases := Some ["customer"; "vendor"];
     category := None; description := Some "Contacts";
     extra_description := None; available_actions := None;
     model_specific_actions := None; aliases_many2one_fields := None;
     fields_source := Some "dynamic"; fields := None;
     examples := None; hints := None |}.

Definition company_entry : GlossaryEntry :=
  {| model := "res.company"; aliases := None;
     category := Some "base"; description := None;
     extra_description := None; available_actions := None;
     model_specific_actions := None; aliases_many2one_fields := None;
     fields_source := Some "static";
     fields := Some [("name", VObj [("type", VStr "char")])];
     examples := None; hints := None |}.

Definition order_entry : GlossaryEntry :=
  {| model := "sale.order"; aliases := None;
     category := Some "sales"; description := None;
     extra_description := None; available_actions := None;
     model_specific_actions := None; aliases_many2one_fields := None;
     fields_source := Some "dynamic";
     fields := Some [("stale", VNull)];
     examples := None; hints := None |}.

(** Objects 0, 1 and 2 of the store. *)
Definition sample_store : Store :=
  fun r =>
    match r with
    | 0 => partner_entry
    | 1 => company_entry
    | _ => order_entry
    end.

Definition sample_world : World :=
  {| heap := sample_store; trace := []; console := []; registered := [] |}.

Definition network_error : Value := VStr "ECONNREFUSED".

(** A remote whose every call rejects. *)
Definition failing_client : RemoteClient :=
  {| reply_fields_get := fun _ _ _ => Rejected network_error;
     reply_search_read := fun _ _ _ _ => Rejected network_error |}.

(** A remote that rejects the fetch for [res.partner] and answers every
    other fetch with one field. *)
Definition flaky_client : RemoteClient :=
  {| reply_fields_get := fun _ m _ =>
       if String.eqb m "res.partner" then Rejected network_error
       else Resolved {| fields_result := Some [("id", VObj [("type", VStr "integer")])] |};
     reply_search_read := fun _ _ _ _ =>
       Resolved {| records_result := None |} |}.

Definition sample_config (key1 key2 : string) : OdxProxyClientInfo :=
  {| instance := {| url := "https://erp.example.com"; user_id := 2;
                    db := "prod"; api_key := key1 |};
     odx_api_key := key2;
     gateway_url := Some "https://gateway.odxproxy.io" |}.

(* ================================================================== *)
(** ** Partner creation ([create_partner]) *)
(* ================================================================== *)

(** The validated input of [create_partner]: [name] is required. *)
Record CreatePartnerInput : Type := {
  new_name : string;
  new_email : option string;
  new_phone : option string;
  new_is_company : option bool
}.

(** The history of the remote client as [create_partner] sees it: the
    queries above and the [create] calls. *)
Inductive ClientCall : Type :=
| query_call (c : RemoteCall)
| create_call (model : string) (args : list Value) (options : CallOptions).

(** The remote side of [create]: what the promise settles to, given the
    calls issued before. *)
Definition CreateReply : Type :=
  list ClientCall -> string -> list Value -> CallOptions -> Outcome Value.

(** [await create(model, args, options)]. *)
Definition create (reply : CreateReply) (m : string) (args : list Value)
    (options : CallOptions) (calls : list ClientCall)
    : Outcome Value * list ClientCall :=
  (reply calls m args options, (calls ++ [create_call m args options])%list).

(** [email ?? false], [phone ?? false] and [is_company ?? false]. *)
Definition str_or_false (x : option string) : Value :=
  match x with
  | Some s => VStr s
  | None => VBool false
  end.

Definition bool_or_false (x : option bool) : Value :=
  match x with
  | Some b => VBool b
  | None => VBool false
  end.

(** The record sent to [create]. *)
Definition partner_values (input : CreatePartnerInput) : Value :=
  VObj [ ("name", VStr (new_name input));
         ("email", str_or_false (new_email input));
         ("phone", str_or_false (new_phone input));
         ("is_company", bool_or_false (new_is_company input)) ].

(** The handler of [create_partner]: the only state it touches is the
    history of remote calls. *)
Definition create_partner (reply : CreateReply) (input : CreatePartnerInput)
    (calls : list ClientCall) : Outcome ToolResult * list ClientCall :=
  match create reply "res.partner" [VArr [partner_values input]] utc calls with
  | (Resolved _, calls') => (Resolved (text_block (Some "true")), calls')
  | (Rejected e, calls') => (Rejected e, calls')
  end.

(** *** Further names used in the statements below *)

(** The message of the diagnostic logged for an entry. *)
Definition fetch_message (e : GlossaryEntry) : string :=
  "Error fetching fields for model " ++ model e ++ ":".

(** The dynamic entries of a catalog, one per occurrence, in order. *)
Definition dynamic_entries (h : Store) (glossary : list Ref) : list Ref :=
  filter (fun r => is_dynamic (h r)) glossary.

(** Every fetch is rejected, or every fetch resolves. *)
Definition fetches_all_fail (client : RemoteClient) : Prop :=
  forall t m o, exists error, reply_fields_get client t m o = Rejected error.

Definition fetches_all_resolve (client : RemoteClient) : Prop :=
  forall t m o, exists res, reply_fields_get client t m o = Resolved res.

(** A remote that answers every call; a fetch for [res.partner] comes
    back without a result. *)
Definition healthy_client : RemoteClient :=
  {| reply_fields_get := fun _ m _ =>
       if String.eqb m "res.partner"
       then Resolved {| fields_result := None |}
       else Resolved {| fields_result := Some [("id", VObj [("type", VStr "integer")])] |};
     reply_search_read := fun _ _ _ _ =>
       Resolved {| records_result :=
                     Some [VObj [("id", VNum 7); ("name", VStr "Acme")]] |} |}.

Definition accepting_create : CreateReply :=
  fun _ _ _ _ => Resolved (VObj [("result", VNum 42)]).

Definition refusing_create : CreateReply :=
  fun _ _ _ _ => Rejected network_error.

(* ================================================================== *)
(** ** Properties of the enrichment loop *)
(* ================================================================== *)

Lemma is_dynamic_true (e : GlossaryEntry) :
  is_dynamic e = true <-> fields_source e = Some "dynamic".
Proof.
  unfold is_dynamic. destruct (fields_source e) as [s|].
  - rewrite String.eqb_eq. split; intros H; [now subst | now inversion H].
  - split; discriminate.
Qed.

Lemma is_dynamic_false (e : GlossaryEntry) :
  is_dynamic e = false <-> fields_source e <> Some "dynamic".
Proof.
  rewrite <- is_dynamic_true. destruct (is_dynamic e); split; congruence.
Qed.

Lemma store_set_same (h : Store) (r : Ref) (e : GlossaryEntry) :
  store_set h r e r = e.
Proof. unfold store_set. now rewrite Nat.eqb_refl. Qed.

Lemma store_set_other (h : Store) (r r' : Ref) (e : GlossaryEntry) :
  r' <> r -> store_set h r e r' = h r'.
Proof.
  intros Hne. unfold store_set.
  destruct (Nat.eqb_spec r' r); [contradiction | reflexivity].
Qed.

Section Enrichment.

Variable client : RemoteClient.

(** One step of the loop, by cases on the entry and on the reply. *)
Lemma enrich_entry_static (r : Ref) (w : World) :
  is_dynamic (heap w r) = false ->
  enrich_entry client r w = (Resolved tt, w).
Proof.
  intros Hs. unfold enrich_entry, bind, read_entry. now rewrite Hs.
Qed.

Lemma enrich_entry_rejected (r : Ref) (w : World) (error : Value) :
  is_dynamic (heap w r) = true ->
  reply_fields_get client (trace w) (model (heap w r)) utc = Rejected error ->
  enrich_entry client r w = (Resolved tt, after_failure r error w).
Proof.
  intros Hd Hrej.
  unfold enrich_entry, bind, read_entry, try_catch, fields_get.
  rewrite Hd. fold utc. rewrite Hrej. reflexivity.
Qed.

Lemma enrich_entry_resolved (r : Ref) (w : World) (res : FieldsGetResponse) :
  is_dynamic (heap w r) = true ->
  reply_fields_get client (trace w) (model (heap w r)) utc = Resolved res ->
  enrich_entry client r w = (Resolved tt, after_success r res w).
Proof.
  intros Hd Hres.
  unfold enrich_entry, bind, read_entry, try_catch, fields_get.
  rewrite Hd. fold utc. rewrite Hres. reflexivity.
Qed.

(** The three cases are exhaustive: a step always resolves. *)
Lemma enrich_entry_cases (r : Ref) (w : World) :
  enrich_entry client r w = (Resolved tt, w) /\ is_dynamic (heap w r) = false
  \/ (exists error,
        enrich_entry client r w = (Resolved tt, after_failure r error w)
        /\ is_dynamic (heap w r) = true)
  \/ (exists res,
        enrich_entry client r w = (Resolved tt, after_success r res w)
        /\ is_dynamic (heap w r) = true).
Proof.
  destruct (is_dynamic (heap w r)) eqn:Hd.
  - destruct (reply_fields_get client (trace w) (model (heap w r)) utc)
      as [res|error] eqn:Hr.
    + right; right. exists res. split; [now apply enrich_entry_resolved | reflexivity].
    + right; left. exists error. split; [now apply enrich_entry_rejected | reflexivity].
  - left. split; [now apply enrich_entry_static | reflexivity].
Qed.

Lemma enrich_entry_resolves (r : Ref) (w : World) :
  enrich_entry client r w = (Resolved tt, enriched client [r] w).
Proof.
  unfold enriched; simpl. unfold bind.
  destruct (enrich_entry_cases r w) as [[H _]|[[e [H _]]|[x [H _]]]];
    rewrite H; reflexivity.
Qed.

Lemma enriched_cons (r : Ref) (rest : list Ref) (w : World) :
  enriched client (r :: rest) w
  = enriched client rest (enriched client [r] w).
Proof.
  unfold enriched at 1. simpl. unfold bind at 1.
  rewrite enrich_entry_resolves. reflexivity.
Qed.

Lemma enriched_app (l1 l2 : list Ref) (w : World) :
  enriched client (l1 ++ l2)%list w
  = enriched client l2 (enriched client l1 w).
Proof.
  revert w. induction l1 as [|r l1 IH]; intros w; simpl.
  - reflexivity.
  - rewrite enriched_cons, IH. now rewrite <- enriched_cons.
Qed.

(** The loop never rejects. *)
Lemma for_of_enrich_resolves (glossary : list Ref) (w : World) :
  for_of glossary (enrich_entry client) w
  = (Resolved tt, enriched client glossary w).
Proof.
  revert w. induction glossary as [|r rest IH]; intros w.
  - reflexivity.
  - rewrite enriched_cons. simpl. unfold bind.
    rewrite enrich_entry_resolves. apply IH.
Qed.

Lemma loadGlossary_resolves (glossary : list Ref) (w : World) :
  loadGlossary client glossary w
  = (Resolved glossary, enriched client glossary w).
Proof.
  unfold loadGlossary, bind. now rewrite for_of_enrich_resolves.
Qed.

(** What a single step may change: only [fields], only at its own entry. *)
Lemma enriched_one_cases (r : Ref) (w : World) :
  enriched client [r] w = w /\ is_dynamic (heap w r) = false
  \/ (exists error, enriched client [r] w = after_failure r error w
                    /\ is_dynamic (heap w r) = true)
  \/ (exists res, enriched client [r] w = after_success r res w
                  /\ is_dynamic (heap w r) = true).
Proof.
  assert (Hrun : forall w', enrich_entry client r w = (Resolved tt, w') ->
                             enriched client [r] w = w').
  { intros w' H. unfold enriched. simpl. unfold bind. now rewrite H. }
  destruct (enrich_entry_cases r w) as [[H Hd]|[[e [H Hd]]|[x [H Hd]]]].
  - left. split; [now apply Hrun | assumption].
  - right; left. exists e. split; [now apply Hrun | assumption].
  - right; right. exists x. split; [now apply Hrun | assumption].
Qed.

(** Case analysis on the step at [r] from [w], rewriting its result. *)
Ltac step_cases r w :=
  let H := fresh "Hstep" in
  let Hd := fresh "Hdyn" in
  destruct (enriched_one_cases r w) as [[H Hd]|[[? [H Hd]]|[? [H Hd]]]];
  rewrite H; try rewrite Hd; simpl; trivial.

Lemma step_heap_other (r r' : Ref) (w : World) :
  r' <> r -> heap (enriched client [r] w) r' = heap w r'.
Proof.
  intros Hne.
  step_cases r w.
  now apply store_set_other.
Qed.

Lemma step_model (r r' : Ref) (w : World) :
  model (heap (enriched client [r] w) r') = model (heap w r').
Proof.
  step_cases r w.
  unfold store_set. destruct (Nat.eqb_spec r' r); [now subst | reflexivity].
Qed.

Lemma step_fields_source (r r' : Ref) (w : World) :
  fields_source (heap (enriched client [r] w) r') = fields_source (heap w r').
Proof.
  step_cases r w.
  unfold store_set. destruct (Nat.eqb_spec r' r); [now subst | reflexivity].
Qed.

Lemma step_is_dynamic (r r' : Ref) (w : World) :
  is_dynamic (heap (enriched client [r] w) r') = is_dynamic (heap w r').
Proof. unfold is_dynamic. now rewrite step_fields_source. Qed.

Lemma step_static_unchanged (r r' : Ref) (w : World) :
  is_dynamic (heap w r') = false ->
  heap (enriched client [r] w) r' = heap w r'.
Proof.
  intros Hs. destruct (Nat.eq_dec r' r) as [->|Hne].
  - unfold enriched. simpl. unfold bind.
    now rewrite (enrich_entry_static r w Hs).
  - now apply step_heap_other.
Qed.

Lemma step_trace (r : Ref) (w : World) :
  trace (enriched client [r] w)
  = (trace w ++ (if is_dynamic (heap w r) then [fetch_call (heap w r)] else []))%list.
Proof.
  step_cases r w.
  now rewrite app_nil_r.
Qed.

Lemma step_registered (r : Ref) (w : World) :
  registered (enriched client [r] w) = registered w.
Proof.
  step_cases r w.
Qed.

(** The same facts for the whole loop. *)
Lemma enriched_model (glossary : list Ref) (w : World) (r : Ref) :
  model (heap (enriched client glossary w) r) = model (heap w r).
Proof.
  revert w. induction glossary as [|x rest IH]; intros w.
  - reflexivity.
  - rewrite enriched_cons, IH. apply step_model.
Qed.

Lemma enriched_is_dynamic (glossary : list Ref) (w : World) (r : Ref) :
  is_dynamic (heap (enriched client glossary w) r) = is_dynamic (heap w r).
Proof.
  revert w. induction glossary as [|x rest IH]; intros w.
  - reflexivity.
  - rewrite enriched_cons, IH. apply step_is_dynamic.
Qed.

Lemma enriched_heap_absent (glossary : list Ref) (w : World) (r : Ref) :
  ~ In r glossary -> heap (enriched client glossary w) r = heap w r.
Proof.
  revert w. induction glossary as [|x rest IH]; intros w Hnin.
  - reflexivity.
  - rewrite enriched_cons, IH by (intros Hin; apply Hnin; now right).
    apply step_heap_other. intros ->. apply Hnin. now left.
Qed.

Lemma enriched_static_unchanged (glossary : list Ref) (w : World) (r : Ref) :
  is_dynamic (heap w r) = false ->
  heap (enriched client glossary w) r = heap w r.
Proof.
  revert w. induction glossary as [|x rest IH]; intros w Hs.
  - reflexivity.
  - rewrite enriched_cons, IH.
    + now apply step_static_unchanged.
    + now rewrite step_is_dynamic.
Qed.

Lemma enriched_trace (glossary : list Ref) (w : World) :
  trace (enriched client glossary w)
  = (trace w
       ++ map (fun r => fetch_call (heap w r))
            (filter (fun r => is_dynamic (heap w r)) glossary))%list.
Proof.
  revert w. induction glossary as [|x rest IH]; intros w.
  - simpl. now rewrite app_nil_r.
  - rewrite enriched_cons, IH, step_trace, <- app_assoc. f_equal.
    simpl filter.
    assert (Hf : filter (fun r => is_dynamic (heap (enriched client [x] w) r)) rest
                 = filter (fun r => is_dynamic (heap w r)) rest).
    { apply filter_ext. intros r. apply step_is_dynamic. }
    assert (Hm : forall l,
               map (fun r => fetch_call (heap (enriched client [x] w) r)) l
               = map (fun r => fetch_call (heap w r)) l).
    { intros l. apply map_ext. intros r. unfold fetch_call.
      now rewrite step_model. }
    rewrite Hf, Hm. destruct (is_dynamic (heap w x)); reflexivity.
Qed.

Lemma enriched_registered (glossary : list Ref) (w : World) :
  registered (enriched client glossary w) = registered w.
Proof.
  revert w. induction glossary as [|x rest IH]; intros w.
  - reflexivity.
  - rewrite enriched_cons, IH. apply step_registered.
Qed.

End Enrichment.

Section EnrichmentConsole.

Variable client : RemoteClient.

Lemma step_console_extends (r : Ref) (w : World) :
  exists more, console (enriched client [r] w) = (console w ++ more)%list.
Proof.
  destruct (enriched_one_cases client r w) as [[H _]|[[e [H _]]|[x [H _]]]];
    rewrite H; simpl.
  - exists []. now rewrite app_nil_r.
  - eexists. reflexivity.
  - exists []. now rewrite app_nil_r.
Qed.

Lemma enriched_console_extends (glossary : list Ref) (w : World) :
  exists more,
    console (enriched client glossary w) = (console w ++ more)%list.
Proof.
  revert w. induction glossary as [|x rest IH]; intros w.
  - exists []. simpl. now rewrite app_nil_r.
  - rewrite enriched_cons.
    destruct (IH (enriched client [x] w)) as [m2 H2].
    destruct (step_console_extends x w) as [m1 H1].
    exists (m1 ++ m2)%list. now rewrite H2, H1, app_assoc.
Qed.

(** A fetched result stays on its entry unless a later occurrence of the
    same object is enriched again. *)
Lemma fetched_fields_kept (a b : list Ref) (w : World) (r : Ref)
    (res : FieldsGetResponse) :
  ~ In r b ->
  is_dynamic (heap (enriched client a w) r) = true ->
  reply_fields_get client (trace (enriched client a w))
    (model (heap (enriched client a w) r)) utc = Resolved res ->
  fields (heap (enriched client (a ++ r :: b)%list w) r)
  = Some (fields_result res ?? []).
Proof.
  intros Hnin Hd Hres.
  rewrite enriched_app, enriched_cons, enriched_heap_absent by assumption.
  unfold enriched at 1. simpl. unfold bind.
  rewrite (enrich_entry_resolved client r _ res Hd Hres). simpl.
  now rewrite store_set_same.
Qed.

End EnrichmentConsole.

(* ================================================================== *)
(** ** Enrichment: the claims *)
(* ================================================================== *)

(** The scenario of a single dynamic entry whose fetch is rejected: the
    entry had no [fields] and still has none. *)
Example scenario_failed_fetch :
  fields (heap (snd (loadGlossary failing_client [0] sample_world)) 0) = None.
Proof. reflexivity. Qed.

(** A dynamic entry that already had [fields] keeps them when its fetch
    is rejected. *)
Example scenario_failed_fetch_stale :
  fields (heap (snd (loadGlossary failing_client [2] sample_world)) 2)
  = Some [("stale", VNull)].
Proof. reflexivity. Qed.

(** C1, as stated, does not hold: with a dynamic entry that has no
    [fields] and a fetch that is rejected, [fields] is still absent after
    [loadGlossary], not an empty mapping. *)
Lemma failed_fetch_leaves_fields_absent : ~ failed_fetch_gives_empty_fields.
Proof.
  intros Hclaim.
  specialize (Hclaim failing_client [] [] sample_world 0 network_error
                eq_refl eq_refl).
  vm_compute in Hclaim. discriminate Hclaim.
Qed.

(** C1 (amended): when the fetch of a dynamic entry is rejected,
    [loadGlossary] logs the error (one console line, made of the message
    naming the entry's model and of the thrown value, which is still on
    the console at the end) and leaves the whole store as it was when the
    fetch was issued; for an entry object that occurs once in the catalog,
    the entry after [loadGlossary] is the entry before it, so [fields]
    keeps its previous value and stays absent if it was absent. *)
Theorem failed_fetch_keeps_entry (client : RemoteClient)
    (pre post : list Ref) (w : World) (r : Ref) (error : Value) :
  fields_source (heap (enriched client pre w) r) = Some "dynamic" ->
  reply_fields_get client (trace (enriched client pre w))
    (model (heap (enriched client pre w) r)) utc = Rejected error ->
  let line :=
    ("Error fetching fields for model "
       ++ model (heap (enriched client pre w) r) ++ ":", error) in
  heap (enriched client (pre ++ [r])%list w) = heap (enriched client pre w)
  /\ console (enriched client (pre ++ [r])%list w)
     = (console (enriched client pre w) ++ [line])%list
  /\ In line (console (snd (loadGlossary client (pre ++ r :: post)%list w)))
  /\ (~ In r pre -> ~ In r post ->
      heap (snd (loadGlossary client (pre ++ r :: post)%list w)) r = heap w r
      /\ fields (heap (snd (loadGlossary client (pre ++ r :: post)%list w)) r)
         = fields (heap w r)).
Proof.
  intros Hd Hrej line. apply is_dynamic_true in Hd.
  assert (Hstep : enriched client [r] (enriched client pre w)
                  = after_failure r error (enriched client pre w)).
  { unfold enriched at 1. simpl. unfold bind.
    now rewrite (enrich_entry_rejected client r _ error Hd Hrej). }
  split; [rewrite enriched_app, Hstep; reflexivity|].
  split; [rewrite enriched_app, Hstep; reflexivity|].
  split.
  - rewrite loadGlossary_resolves. simpl.
    rewrite enriched_app, enriched_cons, Hstep.
    destruct (enriched_console_extends client post
                (after_failure r error (enriched client pre w)))
      as [more Hc].
    rewrite Hc. apply in_or_app. left. simpl.
    apply in_or_app. right. now left.
  - intros Hpre Hpost.
    assert (Hfinal : heap (snd (loadGlossary client (pre ++ r :: post)%list w)) r
                     = heap w r).
    { rewrite loadGlossary_resolves. simpl.
      rewrite enriched_app, enriched_cons, Hstep.
      rewrite enriched_heap_absent by assumption. simpl.
      now apply enriched_heap_absent. }
    split; [exact Hfinal | now rewrite Hfinal].
Qed.

Lemma failed_fetch_keeps_entry_witness :
  let line := ("Error fetching fields for model res.partner:", network_error) in
  heap (enriched flaky_client ([2] ++ [0])%list sample_world)
  = heap (enriched flaky_client [2] sample_world)
  /\ console (enriched flaky_client ([2] ++ [0])%list sample_world)
     = (console (enriched flaky_client [2] sample_world) ++ [line])%list
  /\ In line (console (snd (loadGlossary flaky_client ([2] ++ 0 :: [1])%list
                              sample_world)))
  /\ (~ In 0 [2] -> ~ In 0 [1] ->
      heap (snd (loadGlossary flaky_client ([2] ++ 0 :: [1])%list sample_world)) 0
      = heap sample_world 0
      /\ fields (heap (snd (loadGlossary flaky_client ([2] ++ 0 :: [1])%list
                              sample_world)) 0)
         = fields (heap sample_world 0)).
Proof.
  apply (failed_fetch_keeps_entry flaky_client [2] [1] sample_world 0
           network_error); reflexivity.
Defined.

(** C2: when the fetch of one entry is rejected, [loadGlossary] resolves
    with the catalog, the diagnostic for that entry is on the console, the
    loop goes on over the remaining entries from the world the failed step
    left, and every entry whose own fetch resolved holds the result it
    fetched: the fetched map itself, or the empty mapping when the reply
    carries no result. *)
Theorem loadGlossary_isolates_failure (client : RemoteClient)
    (pre post : list Ref) (w : World) (r : Ref) (error : Value) :
  fields_source (heap (enriched client pre w) r) = Some "dynamic" ->
  reply_fields_get client (trace (enriched client pre w))
    (model (heap (enriched client pre w) r)) utc = Rejected error ->
  let glossary := (pre ++ r :: post)%list in
  let failed := after_failure r error (enriched client pre w) in
  loadGlossary client glossary w
  = (Resolved glossary, enriched client post failed)
  /\ In (fetch_diagnostic (heap (enriched client pre w) r) error)
        (console (snd (loadGlossary client glossary w)))
  /\ (forall (a b : list Ref) (r' : Ref) (res : FieldsGetResponse),
        glossary = (a ++ r' :: b)%list ->
        ~ In r' b ->
        fields_source (heap (enriched client a w) r') = Some "dynamic" ->
        reply_fields_get client (trace (enriched client a w))
          (model (heap (enriched client a w) r')) utc = Resolved res ->
        fields (heap (snd (loadGlossary client glossary w)) r')
        = match fields_result res with
          | Some fetched => Some fetched
          | None => Some []
          end).
Proof.
  intros Hd Hrej glossary failed. apply is_dynamic_true in Hd.
  assert (Hrun : enriched client glossary w = enriched client post failed).
  { unfold glossary, failed. rewrite enriched_app, enriched_cons. f_equal.
    unfold enriched at 1. simpl. unfold bind.
    now rewrite (enrich_entry_rejected client r _ error Hd Hrej). }
  rewrite loadGlossary_resolves, Hrun. split; [reflexivity|]. split.
  - simpl. destruct (enriched_console_extends client post failed) as [more Hc].
    rewrite Hc. apply in_or_app. left. unfold failed. simpl.
    apply in_or_app. right. now left.
  - intros a b r' res Hsplit Hnin Hd' Hres. apply is_dynamic_true in Hd'.
    simpl. rewrite <- Hrun, Hsplit.
    rewrite (fetched_fields_kept client a b w r' res Hnin Hd' Hres).
    destruct (fields_result res); reflexivity.
Qed.

Lemma loadGlossary_isolates_failure_witness :
  let glossary := ([2] ++ 0 :: [1])%list in
  let failed := after_failure 0 network_error (enriched flaky_client [2] sample_world) in
  loadGlossary flaky_client glossary sample_world
  = (Resolved glossary, enriched flaky_client [1] failed)
  /\ In (fetch_diagnostic (heap (enriched flaky_client [2] sample_world) 0)
           network_error)
        (console (snd (loadGlossary flaky_client glossary sample_world)))
  /\ (forall (a b : list Ref) (r' : Ref) (res : FieldsGetResponse),
        glossary = (a ++ r' :: b)%list ->
        ~ In r' b ->
        fields_source (heap (enriched flaky_client a sample_world) r')
        = Some "dynamic" ->
        reply_fields_get flaky_client (trace (enriched flaky_client a sample_world))
          (model (heap (enriched flaky_client a sample_world) r')) utc
        = Resolved res ->
        fields (heap (snd (loadGlossary flaky_client glossary sample_world)) r')
        = match fields_result res with
          | Some fetched => Some fetched
          | None => Some []
          end).
Proof.
  apply (loadGlossary_isolates_failure flaky_client [2] [1] sample_world 0
           network_error); reflexivity.
Defined.

(** The catalog [[sale.order, res.partner, res.company]] with the fetch
    for [res.partner] rejected: the order entry holds its fetched fields,
    the partner entry is as before, one diagnostic is logged. *)
Example scenario_isolation :
  let w' := snd (loadGlossary flaky_client [2; 0; 1] sample_world) in
  fields (heap w' 2) = Some [("id", VObj [("type", VStr "integer")])]
  /\ fields (heap w' 0) = None
  /\ fields (heap w' 1) = Some [("name", VObj [("type", VStr "char")])]
  /\ console w' = [("Error fetching fields for model res.partner:", network_error)]
  /\ trace w' = [call_fields_get "sale.order" utc; call_fields_get "res.partner" utc].
Proof. repeat split. Qed.

(** C3: [loadGlossary] resolves with a catalog of the same length whose
    entries carry, position by position, the [model] they had. *)
Theorem loadGlossary_preserves_catalog (client : RemoteClient)
    (glossary : list Ref) (w : World) :
  exists (out : list Ref) (w' : World),
    loadGlossary client glossary w = (Resolved out, w')
    /\ out = glossary
    /\ length out = length glossary
    /\ map (fun r => model (heap w' r)) out
       = map (fun r => model (heap w r)) glossary.
Proof.
  exists glossary, (enriched client glossary w).
  split; [apply loadGlossary_resolves|].
  split; [reflexivity|]. split; [reflexivity|].
  apply map_ext. intros r. apply enriched_model.
Qed.

(** C4: an entry whose [fields_source] is not ["dynamic"] is the same
    object after [loadGlossary], in particular with the same [fields]; the
    fetches issued are those of the dynamic entries, one per occurrence in
    catalog order, and the entry is not among them. *)
Theorem static_entries_untouched (client : RemoteClient)
    (glossary : list Ref) (w : World) (r : Ref) :
  fields_source (heap w r) <> Some "dynamic" ->
  exists w' : World,
    loadGlossary client glossary w = (Resolved glossary, w')
    /\ heap w' r = heap w r
    /\ fields (heap w' r) = fields (heap w r)
    /\ trace w'
       = (trace w
            ++ map (fun x => call_fields_get (model (heap w x)) utc)
                 (filter (fun x => is_dynamic (heap w x)) glossary))%list
    /\ ~ In r (filter (fun x => is_dynamic (heap w x)) glossary).
Proof.
  intros Hs. apply is_dynamic_false in Hs.
  exists (enriched client glossary w).
  split; [apply loadGlossary_resolves|].
  assert (Hsame : heap (enriched client glossary w) r = heap w r)
    by now apply enriched_static_unchanged.
  split; [exact Hsame|]. split; [now rewrite Hsame|].
  split; [apply enriched_trace|].
  intros Hin. apply filter_In in Hin. destruct Hin as [_ Hd]. congruence.
Qed.

Lemma static_entries_untouched_witness :
  exists w' : World,
    loadGlossary flaky_client [2; 0; 1] sample_world = (Resolved [2; 0; 1], w')
    /\ heap w' 1 = heap sample_world 1
    /\ fields (heap w' 1) = fields (heap sample_world 1)
    /\ trace w'
       = (trace sample_world
            ++ map (fun x => call_fields_get (model (heap sample_world x)) utc)
                 (filter (fun x => is_dynamic (heap sample_world x)) [2; 0; 1]))%list
    /\ ~ In 1 (filter (fun x => is_dynamic (heap sample_world x)) [2; 0; 1]).
Proof.
  apply (static_entries_untouched flaky_client [2; 0; 1] sample_world 1).
  simpl. discriminate.
Defined.

(* ================================================================== *)
(** ** Resource publication *)
(* ================================================================== *)

Lemma append_inj_l (p a b : string) : p ++ a = p ++ b -> a = b.
Proof.
  induction p as [|c p IH]; simpl; intros H.
  - exact H.
  - inversion H. now apply IH.
Qed.

Lemma prefixed_NoDup (p : string) (l : list string) :
  NoDup l -> NoDup (map (fun s => p ++ s) l).
Proof.
  apply Injective_map_NoDup. intros a b. apply append_inj_l.
Qed.

(** *** The registrar *)

Lemma holds_uri_app (regs regs' : list Registration) (uri : string) :
  holds_uri (regs ++ regs')%list uri
  = orb (holds_uri regs uri) (holds_uri regs' uri).
Proof. unfold holds_uri. apply existsb_app. Qed.

Lemma holds_uri_true_iff (regs : list Registration) (uri : string) :
  holds_uri regs uri = true <-> In uri (map reg_uri regs).
Proof.
  unfold holds_uri. rewrite existsb_exists, in_map_iff.
  split; intros [g [H1 H2]]; exists g.
  - apply String.eqb_eq in H2. now split.
  - split; [exact H2 | now apply String.eqb_eq].
Qed.

Lemma holds_uri_false_iff (regs : list Registration) (uri : string) :
  holds_uri regs uri = false <-> ~ In uri (map reg_uri regs).
Proof.
  rewrite <- holds_uri_true_iff. destruct (holds_uri regs uri); split;
    congruence.
Qed.

(** The registrations are all accepted exactly when their URIs are
    pairwise distinct and none is held already. *)
Lemma register_run_resolves_iff (regs new : list Registration) :
  fst (register_run regs new) = Resolved tt
  <-> NoDup (map reg_uri new)
      /\ (forall g, In g new -> holds_uri regs (reg_uri g) = false).
Proof.
  revert regs. induction new as [|g rest IH]; intros regs; simpl.
  - split; [intros _; split; [constructor | intros g []] | reflexivity].
  - destruct (holds_uri regs (reg_uri g)) eqn:Hheld; simpl.
    + split; [discriminate|]. intros [_ Hfree].
      specialize (Hfree g (or_introl eq_refl)). congruence.
    + rewrite IH. split.
      * intros [Hnd Hfree]. split.
        -- constructor; [|exact Hnd]. intros Hin.
           apply in_map_iff in Hin. destruct Hin as [g' [Huri Hin]].
           specialize (Hfree g' Hin). rewrite holds_uri_app in Hfree.
           apply orb_false_iff in Hfree. destruct Hfree as [_ Hfree].
           simpl in Hfree. rewrite Huri, String.eqb_refl in Hfree.
           discriminate.
        -- intros g' [<-|Hin]; [exact Hheld|].
           specialize (Hfree g' Hin). rewrite holds_uri_app in Hfree.
           now apply orb_false_iff in Hfree.
      * intros [Hnd Hfree]. apply NoDup_cons_iff in Hnd.
        destruct Hnd as [Hnin Hnd]. split; [exact Hnd|].
        intros g' Hin. rewrite holds_uri_app. apply orb_false_iff.
        split; [apply Hfree; now right|]. simpl.
        rewrite orb_false_r. apply String.eqb_neq. intros Heq.
        apply Hnin. rewrite Heq. now apply in_map.
Qed.

Lemma register_run_resolved (regs new : list Registration) :
  fst (register_run regs new) = Resolved tt ->
  snd (register_run regs new) = (regs ++ new)%list.
Proof.
  revert regs. induction new as [|g rest IH]; intros regs; simpl.
  - intros _. now rewrite app_nil_r.
  - destruct (holds_uri regs (reg_uri g)); simpl; [discriminate|].
    intros H. rewrite (IH _ H), <- app_assoc. reflexivity.
Qed.

(** What the registrar holds is only extended, and distinct URIs stay
    distinct. *)
Lemma register_run_extends (regs new : list Registration) :
  exists done rest,
    snd (register_run regs new) = (regs ++ done)%list
    /\ new = (done ++ rest)%list.
Proof.
  revert regs. induction new as [|g more IH]; intros regs; simpl.
  - exists [], []. now rewrite app_nil_r.
  - destruct (holds_uri regs (reg_uri g)); simpl.
    + exists [], (g :: more). now rewrite app_nil_r.
    + destruct (IH (regs ++ [g])%list) as [done [rest [H1 H2]]].
      exists (g :: done), rest. rewrite H1, <- app_assoc, H2. now split.
Qed.

Lemma register_run_distinct (regs new : list Registration) :
  NoDup (map reg_uri regs) ->
  NoDup (map reg_uri (snd (register_run regs new))).
Proof.
  revert regs. induction new as [|g more IH]; intros regs Hnd; simpl.
  - exact Hnd.
  - destruct (holds_uri regs (reg_uri g)) eqn:Hheld; simpl; [exact Hnd|].
    apply IH. rewrite map_app. simpl.
    apply NoDup_rev in Hnd. rewrite <- (rev_involutive (_ ++ _)%list).
    apply NoDup_rev. rewrite rev_app_distr. simpl.
    constructor; [|exact Hnd].
    rewrite <- in_rev. now apply holds_uri_false_iff.
Qed.

Section Publication.

Variable client : RemoteClient.

(** The registration loop is the registrar fed one registration per
    entry, in catalog order; it touches nothing else. *)
Lemma register_all (refs : list Ref) (w : World) :
  let new := map (registration_of (heap w)) refs in
  for_of refs register_entry w
  = (fst (register_run (registered w) new),
     {| heap := heap w;
        trace := trace w;
        console := console w;
        registered := snd (register_run (registered w) new) |}).
Proof.
  revert w. induction refs as [|x rest IH]; intros [h t c g] new.
  - reflexivity.
  - subst new. cbn [for_of map heap registered trace console register_run].
    unfold bind at 1. unfold register_entry at 1.
    unfold bind, read_entry, registerResource.
    cbn [heap registered trace console reg_uri registration_of].
    destruct (holds_uri g ("glossary://" ++ model (h x))); [reflexivity|].
    rewrite IH. reflexivity.
Qed.

Lemma loadGlossaries_run (refs : list Ref) (w : World) :
  let w1 := enriched client refs w in
  let new := map (registration_of (heap w1)) refs in
  loadGlossaries client (Some refs) w
  = (fst (register_run (registered w) new),
     {| heap := heap w1;
        trace := trace w1;
        console := console w1;
        registered := snd (register_run (registered w) new) |}).
Proof.
  intros w1 new. unfold loadGlossaries, bind.
  rewrite loadGlossary_resolves, register_all.
  subst new w1. cbv zeta. rewrite enriched_registered. reflexivity.
Qed.

End Publication.

(** With no catalog at all nothing is fetched and nothing is registered. *)
Example loadGlossaries_undefined (client : RemoteClient) (w : World) :
  loadGlossaries client None w = (Resolved tt, w).
Proof. reflexivity. Qed.

(** C5: for a catalog of N entries with distinct [model]s, on a server
    that holds none of their URIs, whatever the remote replies (so also
    when fetches are rejected), [loadGlossaries] resolves and adds exactly
    N registrations, one per entry in catalog order, the one for model [m]
    named [glossary_m] at the URI [glossary://m]; the names and the URIs
    are pairwise distinct. *)
Theorem loadGlossaries_registers_all (client : RemoteClient)
    (refs : list Ref) (w : World) :
  NoDup (map (fun r => model (heap w r)) refs) ->
  (forall r, In r refs ->
             ~ In ("glossary://" ++ model (heap w r))
                  (map reg_uri (registered w))) ->
  exists (w' : World) (new : list Registration),
    loadGlossaries client (Some refs) w = (Resolved tt, w')
    /\ registered w' = (registered w ++ new)%list
    /\ length new = length refs
    /\ map reg_entry new = refs
    /\ map reg_name new = map (fun r => "glossary_" ++ model (heap w r)) refs
    /\ map reg_uri new = map (fun r => "glossary://" ++ model (heap w r)) refs
    /\ NoDup (map reg_name new)
    /\ NoDup (map reg_uri new).
Proof.
  intros Hdistinct Hfree.
  set (w1 := enriched client refs w).
  set (new := map (registration_of (heap w1)) refs).
  assert (Hname : map reg_name new
                  = map (fun r => "glossary_" ++ model (heap w r)) refs).
  { unfold new. rewrite map_map. apply map_ext. intros r. simpl.
    unfold w1. now rewrite enriched_model. }
  assert (Huri : map reg_uri new
                 = map (fun r => "glossary://" ++ model (heap w r)) refs).
  { unfold new. rewrite map_map. apply map_ext. intros r. simpl.
    unfold w1. now rewrite enriched_model. }
  assert (Hnames : NoDup (map reg_name new)).
  { rewrite Hname.
    rewrite <- (map_map (fun r => model (heap w r)) (fun s => "glossary_" ++ s)).
    now apply prefixed_NoDup. }
  assert (Huris : NoDup (map reg_uri new)).
  { rewrite Huri.
    rewrite <- (map_map (fun r => model (heap w r)) (fun s => "glossary://" ++ s)).
    now apply prefixed_NoDup. }
  assert (Hok : fst (register_run (registered w) new) = Resolved tt).
  { apply register_run_resolves_iff. split; [exact Huris|].
    intros g Hin. apply holds_uri_false_iff.
    unfold new in Hin. apply in_map_iff in Hin. destruct Hin as [r [<- Hin]].
    simpl. unfold w1. rewrite enriched_model. now apply Hfree. }
  exists {| heap := heap w1; trace := trace w1; console := console w1;
            registered := snd (register_run (registered w) new) |}.
  exists new.
  split; [rewrite loadGlossaries_run; fold w1; fold new; now rewrite Hok|].
  split; [simpl; now apply register_run_resolved|].
  split; [apply length_map|].
  split; [unfold new; rewrite map_map; simpl; apply map_id|].
  split; [exact Hname|]. split; [exact Huri|]. split; assumption.
Qed.

Lemma loadGlossaries_registers_all_witness :
  exists (w' : World) (new : list Registration),
    loadGlossaries failing_client (Some [2; 0; 1]) sample_world = (Resolved tt, w')
    /\ registered w' = (registered sample_world ++ new)%list
    /\ length new = length [2; 0; 1]
    /\ map reg_entry new = [2; 0; 1]
    /\ map reg_name new
       = map (fun r => "glossary_" ++ model (heap sample_world r)) [2; 0; 1]
    /\ map reg_uri new
       = map (fun r => "glossary://" ++ model (heap sample_world r)) [2; 0; 1]
    /\ NoDup (map reg_name new)
    /\ NoDup (map reg_uri new).
Proof.
  apply (loadGlossaries_registers_all failing_client [2; 0; 1] sample_world).
  - simpl. repeat constructor; simpl; intuition discriminate.
  - simpl. intros r _ [].
Defined.

(** The scenario of one dynamic entry whose fetch is rejected: one
    resource, at [glossary://res.partner]. *)
Example scenario_one_resource :
  map (fun g => (reg_name g, reg_uri g))
    (registered (snd (loadGlossaries failing_client (Some [0]) sample_world)))
  = [("glossary_res.partner", "glossary://res.partner")].
Proof. reflexivity. Qed.

(** A server that already holds [glossary://res.partner]: the registrar
    refuses the entry and [loadGlossaries] rejects, the entries before it
    registered. *)
Example scenario_held_uri :
  let once := snd (loadGlossaries failing_client (Some [0]) sample_world) in
  fst (loadGlossaries failing_client (Some [1; 0; 2]) once)
  = Rejected (already_registered "glossary://res.partner")
  /\ map reg_uri (registered (snd (loadGlossaries failing_client
                                     (Some [1; 0; 2]) once)))
     = ["glossary://res.partner"; "glossary://res.company"].
Proof. split; reflexivity. Qed.

(* ================================================================== *)
(** ** Tool handlers *)
(* ================================================================== *)

Lemma truthy_num_nonzero (n : Z) : n <> 0%Z -> truthy_num (Some n) = Some n.
Proof.
  intros Hn. unfold truthy_num.
  destruct (Z.eqb_spec n 0); [contradiction | reflexivity].
Qed.

Lemma truthy_str_nonempty (s : string) :
  s <> EmptyString -> truthy_str (Some s) = Some s.
Proof. destruct s; [contradiction | reflexivity]. Qed.

(** [toLowerCase] leaves no upper-case ASCII letter. *)
Lemma lower_ascii_not_upper (c : ascii) :
  nat_of_ascii (lower_ascii c) < 65 \/ 90 < nat_of_ascii (lower_ascii c).
Proof.
  unfold lower_ascii.
  destruct (Nat.leb_spec 65 (nat_of_ascii c)) as [Hlo|Hlo]; simpl.
  - destruct (Nat.leb_spec (nat_of_ascii c) 90) as [Hhi|Hhi]; simpl.
    + rewrite nat_ascii_embedding by lia. lia.
    + lia.
  - lia.
Qed.

Lemma toLowerCase_no_upper (s : string) (c : ascii) :
  In c (list_ascii_of_string (toLowerCase s)) ->
  nat_of_ascii c < 65 \/ 90 < nat_of_ascii c.
Proof.
  induction s as [|x s IH]; simpl.
  - contradiction.
  - intros [<-|Hin]; [apply lower_ascii_not_upper | now apply IH].
Qed.

Lemma toLowerCase_length (s : string) :
  String.length (toLowerCase s) = String.length s.
Proof. induction s as [|x s IH]; simpl; [reflexivity | now rewrite IH]. Qed.

(** A query of [get_partners] issues exactly one [search_read] call. *)
Lemma get_partners_query (client : RemoteClient) (input : PartnersInput)
    (domain : list Value) (w : World) :
  partners_domain input = Some domain ->
  trace (snd (get_partners client input w))
  = (trace w ++ [call_search_read "res.partner" domain singapore])%list.
Proof.
  intros Hdom. unfold get_partners. rewrite Hdom.
  unfold bind, search_read. fold singapore.
  destruct (reply_search_read client (trace w) "res.partner" domain singapore);
    reflexivity.
Qed.

(** [get_companies] always issues exactly one [search_read] call, with
    the filter wrapped in a one-element list. *)
Lemma get_companies_query (client : RemoteClient) (input : CompaniesInput)
    (w : World) :
  trace (snd (get_companies client input w))
  = (trace w
       ++ [call_search_read "res.company" [VArr (companies_domain input)]
             singapore])%list.
Proof.
  unfold get_companies, bind, search_read. fold singapore.
  destruct (reply_search_read client (trace w) "res.company"
              [VArr (companies_domain input)] singapore); reflexivity.
Qed.

Lemma toLowerCase_get (s : string) (i : nat) (c : ascii) :
  String.get i s = Some c ->
  String.get i (toLowerCase s) = Some (lower_ascii c).
Proof.
  revert i. induction s as [|x s IH]; intros i; simpl.
  - discriminate.
  - destruct i as [|i].
    + intros H. now inversion H.
    + apply IH.
Qed.

(** C6, as stated, does not hold: an [id] of 0 is provided, passes the
    schema, and does not win: with [{id: 0, email: "x@y.com", name: "x"}]
    the filter is the disjunction on email and name. *)
Lemma id_zero_does_not_take_precedence : ~ provided_id_takes_precedence.
Proof.
  intros Hclaim.
  specialize (Hclaim 0%Z (Some "x@y.com") (Some "x")).
  vm_compute in Hclaim. discriminate Hclaim.
Qed.

(** The run behind it: the filter sent for that input. *)
Example id_zero_sends_disjunction :
  partners_schema {| partners_id := Some 0%Z; partners_email := Some "x@y.com";
                     partners_name := Some "x" |} = true
  /\ partners_domain {| partners_id := Some 0%Z; partners_email := Some "x@y.com";
                        partners_name := Some "x" |}
     = Some [VStr "|";
             VArr [VStr "email"; VStr "="; VStr "x@y.com"];
             VArr [VStr "name"; VStr "ilike"; VStr "x"]].
Proof. split; reflexivity. Qed.

(** C6 (amended): in [get_partners] a provided [id] other than 0 wins over
    every other input: the filter is [[["id","=",id]]] whatever [email]
    and [name] are, and that filter is the one sent in the single remote
    query. *)
Theorem partner_id_takes_precedence (client : RemoteClient) (id : Z)
    (email name : option string) (w : World) :
  id <> 0%Z ->
  let input := {| partners_id := Some id; partners_email := email;
                  partners_name := name |} in
  partners_domain input = Some [VArr [VStr "id"; VStr "="; VNum id]]
  /\ trace (snd (get_partners client input w))
     = (trace w
          ++ [call_search_read "res.partner"
                [VArr [VStr "id"; VStr "="; VNum id]] singapore])%list.
Proof.
  intros Hid input.
  assert (Hdom : partners_domain input
                 = Some [VArr [VStr "id"; VStr "="; VNum id]]).
  { unfold partners_domain, input. cbn [partners_id].
    now rewrite truthy_num_nonzero. }
  split; [exact Hdom | now apply get_partners_query].
Qed.

Lemma partner_id_takes_precedence_witness :
  let input := {| partners_id := Some 7%Z; partners_email := Some "x@y.com";
                  partners_name := Some "x" |} in
  partners_domain input = Some [VArr [VStr "id"; VStr "="; VNum 7]]
  /\ trace (snd (get_partners flaky_client input sample_world))
     = (trace sample_world
          ++ [call_search_read "res.partner"
                [VArr [VStr "id"; VStr "="; VNum 7]] singapore])%list.
Proof.
  apply (partner_id_takes_precedence flaky_client 7 (Some "x@y.com") (Some "x")
           sample_world).
  lia.
Defined.

(** C7, as stated, does not hold: with no [id], the email [a@b.com] and
    the name [""] (a string the schema admits) both provided, the filter
    is the single email term, not the disjunction. *)
Lemma empty_name_gives_no_disjunction :
  ~ provided_email_and_name_give_disjunction.
Proof.
  intros Hclaim.
  specialize (Hclaim "a@b.com" EmptyString eq_refl).
  vm_compute in Hclaim. discriminate Hclaim.
Qed.

(** C7 (amended): in [get_partners], with no [id] and both [email] and
    [name] provided and non-empty, the filter is
    [["|", ["email","=",lower], ["name","ilike",name]]] and it is the one
    sent in the single remote query.  [lower] is the email in lower case:
    character by character, an upper-case letter A..Z is replaced by the
    letter 32 codes above it and every other character is kept.  The name
    goes unchanged under the [ilike] operator. *)
Theorem partner_email_name_disjunction (client : RemoteClient)
    (email name : string) (w : World) :
  email <> EmptyString ->
  name <> EmptyString ->
  let input := {| partners_id := None; partners_email := Some email;
                  partners_name := Some name |} in
  exists lower : string,
    partners_domain input
    = Some [VStr "|";
            VArr [VStr "email"; VStr "="; VStr lower];
            VArr [VStr "name"; VStr "ilike"; VStr name]]
    /\ trace (snd (get_partners client input w))
       = (trace w
            ++ [call_search_read "res.partner"
                  [VStr "|";
                   VArr [VStr "email"; VStr "="; VStr lower];
                   VArr [VStr "name"; VStr "ilike"; VStr name]]
                  singapore])%list
    /\ String.length lower = String.length email
    /\ (forall (i : nat) (c : ascii),
          String.get i email = Some c ->
          String.get i lower
          = Some (if andb (Nat.leb 65 (nat_of_ascii c))
                          (Nat.leb (nat_of_ascii c) 90)
                  then ascii_of_nat (nat_of_ascii c + 32)
                  else c)).
Proof.
  intros He Hn input. exists (toLowerCase email).
  assert (Hdom : partners_domain input
                 = Some [VStr "|";
                         VArr [VStr "email"; VStr "="; VStr (toLowerCase email)];
                         VArr [VStr "name"; VStr "ilike"; VStr name]]).
  { unfold partners_domain, input.
    cbn [partners_id partners_email partners_name truthy_num].
    rewrite (truthy_str_nonempty email He), (truthy_str_nonempty name Hn).
    reflexivity. }
  split; [exact Hdom|]. split; [now apply get_partners_query|].
  split; [apply toLowerCase_length|].
  intros i c Hget. now rewrite (toLowerCase_get email i c Hget).
Qed.

Lemma partner_email_name_disjunction_witness :
  exists lower : string,
    partners_domain {| partners_id := None; partners_email := Some "Ab@C.com";
                       partners_name := Some "Acme" |}
    = Some [VStr "|";
            VArr [VStr "email"; VStr "="; VStr lower];
            VArr [VStr "name"; VStr "ilike"; VStr "Acme"]]
    /\ trace (snd (get_partners flaky_client
                     {| partners_id := None; partners_email := Some "Ab@C.com";
                        partners_name := Some "Acme" |} sample_world))
       = (trace sample_world
            ++ [call_search_read "res.partner"
                  [VStr "|";
                   VArr [VStr "email"; VStr "="; VStr lower];
                   VArr [VStr "name"; VStr "ilike"; VStr "Acme"]]
                  singapore])%list
    /\ String.length lower = String.length "Ab@C.com"
    /\ (forall (i : nat) (c : ascii),
          String.get i "Ab@C.com" = Some c ->
          String.get i lower
          = Some (if andb (Nat.leb 65 (nat_of_ascii c))
                          (Nat.leb (nat_of_ascii c) 90)
                  then ascii_of_nat (nat_of_ascii c + 32)
                  else c)).
Proof.
  apply (partner_email_name_disjunction flaky_client "Ab@C.com" "Acme"
           sample_world); discriminate.
Defined.

(** The filter for a mixed-case email: lower case in the email term, the
    name as given. *)
Example partner_disjunction_lowercased :
  partners_domain {| partners_id := None; partners_email := Some "Ab@C.com";
                     partners_name := Some "Acme" |}
  = Some [VStr "|";
          VArr [VStr "email"; VStr "="; VStr "ab@c.com"];
          VArr [VStr "name"; VStr "ilike"; VStr "Acme"]].
Proof. reflexivity. Qed.

(** The filter of the second testable input. *)
Example partner_disjunction_sample :
  partners_domain {| partners_id := None; partners_email := Some "a@b.com";
                     partners_name := Some "Acme" |}
  = Some [VStr "|";
          VArr [VStr "email"; VStr "="; VStr "a@b.com"];
          VArr [VStr "name"; VStr "ilike"; VStr "Acme"]].
Proof. reflexivity. Qed.

(** C8: with none of [id], [email], [name] given, [get_partners] resolves
    with the single text block ["[]"] and leaves the world as it was, so
    no remote call is issued. *)
Theorem partners_no_input_no_query (client : RemoteClient) (w : World) :
  get_partners client
    {| partners_id := None; partners_email := None; partners_name := None |} w
  = (Resolved {| content := [{| type := "text"; text := Some "[]" |}] |}, w).
Proof. reflexivity. Qed.





(** The text produced for a sample configuration: no key in it. *)
Example odx_config_sample :
  fst (odx_config (sample_config "odoo-secret" "odx-secret") sample_world)
  = Resolved
      (text_block
         (Some
            ("{" ++ newline
             ++ "  " ++ QuoteJSONString "url" ++ ": "
             ++ QuoteJSONString "https://erp.example.com" ++ "," ++ newline
             ++ "  " ++ QuoteJSONString "database" ++ ": "
             ++ QuoteJSONString "prod" ++ "," ++ newline
             ++ "  " ++ QuoteJSONString "gateway" ++ ": "
             ++ QuoteJSONString "https://gateway.odxproxy.io" ++ "," ++ newline
             ++ "  " ++ QuoteJSONString "userUid" ++ ": 2" ++ newline
             ++ "}"))).
Proof. vm_compute. reflexivity. Qed.

(** C10, as stated, does not hold: at the tool interface an empty [email]
    is not treated as a missing one.  The input schema refuses it before
    the handler runs, where the same call without [email] answers ["[]"]. *)
Lemma empty_email_is_refused : ~ empty_email_counts_as_absent.
Proof.
  intros Hclaim.
  specialize (Hclaim failing_client None None sample_world).
  vm_compute in Hclaim. discriminate Hclaim.
Qed.

(** C10 (amended): at the tool interface a falsy [id] or [name] counts as
    missing.  In [get_partners] an [id] of 0 behaves as no [id] and an
    empty [name] as no [name], and with only such inputs the tool resolves
    with ["[]"] without a remote call; an empty [email] is refused by the
    input schema and never reaches the handler.  In [get_companies] an
    empty [name] and an [id] of 0 add no filter term, and with both the
    query sent is the one with the empty filter. *)
Theorem falsy_inputs_are_absent (client : RemoteClient) (w : World) :
  (forall email name,
     tool_get_partners client
       {| partners_id := Some 0%Z; partners_email := email;
          partners_name := name |}
     = tool_get_partners client
         {| partners_id := None; partners_email := email;
            partners_name := name |})
  /\ (forall id email,
        tool_get_partners client
          {| partners_id := id; partners_email := email;
             partners_name := Some EmptyString |}
        = tool_get_partners client
            {| partners_id := id; partners_email := email;
               partners_name := None |})
  /\ tool_get_partners client
       {| partners_id := Some 0%Z; partners_email := None;
          partners_name := Some EmptyString |} w
     = (Resolved (text_block (Some "[]")), w)
  /\ (forall id name,
        tool_get_partners client
          {| partners_id := id; partners_email := Some EmptyString;
             partners_name := name |} w
        = (Rejected invalid_params, w))
  /\ (forall id,
        companies_domain {| companies_name := Some EmptyString;
                            companies_id := id |}
        = companies_domain {| companies_name := None; companies_id := id |})
  /\ (forall name,
        companies_domain {| companies_name := name; companies_id := Some 0%Z |}
        = companies_domain {| companies_name := name; companies_id := None |})
  /\ companies_domain {| companies_name := Some EmptyString;
                         companies_id := Some 0%Z |} = []
  /\ trace (snd (get_companies client
                   {| companies_name := Some EmptyString;
                      companies_id := Some 0%Z |} w))
     = (trace w ++ [call_search_read "res.company" [VArr []] singapore])%list.
Proof.
  repeat split. apply get_companies_query.
Qed.

(** A call the schema admits runs the handler. *)
Lemma tool_get_partners_admitted (client : RemoteClient)
    (input : PartnersInput) (w : World) :
  partners_schema input = true ->
  tool_get_partners client input w = get_partners client input w.
Proof. intros Hok. unfold tool_get_partners. now rewrite Hok. Qed.

(* ================================================================== *)
(** ** Further properties of the enrichment loop *)
(* ================================================================== *)

Section EnrichmentFrame.

Variable client : RemoteClient.

Lemma step_only_fields (x r : Ref) (w : World) :
  heap (enriched client [x] w) r = heap w r
  \/ exists f, heap (enriched client [x] w) r = set_fields (heap w r) f.
Proof.
  destruct (enriched_one_cases client x w) as [[H _]|[[e [H _]]|[res [H _]]]];
    rewrite H; simpl; auto.
  unfold store_set. destruct (Nat.eqb_spec r x) as [->|_]; eauto.
Qed.

Lemma enriched_only_fields (glossary : list Ref) (w : World) (r : Ref) :
  heap (enriched client glossary w) r = heap w r
  \/ exists f, heap (enriched client glossary w) r = set_fields (heap w r) f.
Proof.
  revert w. induction glossary as [|x rest IH]; intros w.
  - now left.
  - rewrite enriched_cons.
    destruct (IH (enriched client [x] w)) as [H1|[f1 H1]];
      destruct (step_only_fields x r w) as [H0|[f0 H0]];
      rewrite H1, H0; eauto.
    right. exists f1. reflexivity.
Qed.

Lemma step_console_lines (x : Ref) (w : World) :
  exists m1,
    console (enriched client [x] w) = (console w ++ m1)%list
    /\ (m1 = []
        \/ is_dynamic (heap w x) = true
           /\ exists error, m1 = [fetch_diagnostic (heap w x) error]).
Proof.
  destruct (enriched_one_cases client x w) as [[H _]|[[e [H Hd]]|[res [H _]]]];
    rewrite H; simpl.
  - exists []. rewrite app_nil_r. auto.
  - eexists. split; [reflexivity|]. right. eauto.
  - exists []. rewrite app_nil_r. auto.
Qed.

Lemma dynamic_entries_step (x : Ref) (rest : list Ref) (w : World) :
  dynamic_entries (heap (enriched client [x] w)) rest
  = dynamic_entries (heap w) rest.
Proof.
  unfold dynamic_entries. apply filter_ext. intros r. apply step_is_dynamic.
Qed.

Lemma fetch_message_step (x r : Ref) (w : World) :
  fetch_message (heap (enriched client [x] w) r) = fetch_message (heap w r).
Proof. unfold fetch_message. now rewrite step_model. Qed.

Lemma step_fields_present (x r : Ref) (w : World) :
  fields (heap w r) <> None ->
  fields (heap (enriched client [x] w) r) <> None.
Proof.
  intros Hp. destruct (step_only_fields x r w) as [H|[f H]]; rewrite H.
  - exact Hp.
  - simpl. discriminate.
Qed.

Lemma enriched_fields_present (glossary : list Ref) (w : World) (r : Ref) :
  fields (heap w r) <> None ->
  fields (heap (enriched client glossary w) r) <> None.
Proof.
  revert w. induction glossary as [|x rest IH]; intros w Hp.
  - exact Hp.
  - rewrite enriched_cons. apply IH. now apply step_fields_present.
Qed.

End EnrichmentFrame.

(** X1: whatever the remote replies, every entry object after
    [loadGlossary] is the object before it, possibly with [fields]
    assigned: no other member of any entry changes. *)
Theorem loadGlossary_changes_only_fields (client : RemoteClient)
    (glossary : list Ref) (w : World) (r : Ref) :
  let before := heap w r in
  let after := heap (snd (loadGlossary client glossary w)) r in
  (after = before \/ exists f, after = set_fields before f)
  /\ model after = model before
  /\ aliases after = aliases before
  /\ category after = category before
  /\ description after = description before
  /\ extra_description after = extra_description before
  /\ available_actions after = available_actions before
  /\ model_specific_actions after = model_specific_actions before
  /\ aliases_many2one_fields after = aliases_many2one_fields before
  /\ fields_source after = fields_source before
  /\ examples after = examples before
  /\ hints after = hints before.
Proof.
  intros before after.
  assert (H : after = before \/ exists f, after = set_fields before f).
  { unfold after, before. rewrite loadGlossary_resolves. simpl.
    apply enriched_only_fields. }
  split; [exact H|].
  destruct H as [H|[f H]]; rewrite H; repeat split.
Qed.

(** X2: an entry object the catalog does not refer to is not touched by
    [loadGlossary], and [loadGlossary] registers nothing. *)
Theorem loadGlossary_frame (client : RemoteClient) (glossary : list Ref)
    (w : World) (r : Ref) :
  ~ In r glossary ->
  heap (snd (loadGlossary client glossary w)) r = heap w r
  /\ registered (snd (loadGlossary client glossary w)) = registered w.
Proof.
  intros Hnin. rewrite loadGlossary_resolves. simpl. split.
  - now apply enriched_heap_absent.
  - apply enriched_registered.
Qed.

Lemma loadGlossary_frame_witness :
  heap (snd (loadGlossary healthy_client [2; 0] sample_world)) 1
  = heap sample_world 1
  /\ registered (snd (loadGlossary healthy_client [2; 0] sample_world))
     = registered sample_world.
Proof.
  apply (loadGlossary_frame healthy_client [2; 0] sample_world 1).
  simpl. intuition discriminate.
Defined.

(** X3: enriching a catalog made of two parts is enriching the first part
    and then the second from the world the first run left. *)
Theorem loadGlossary_concat (client : RemoteClient) (l1 l2 : list Ref)
    (w : World) :
  loadGlossary client (l1 ++ l2)%list w
  = (Resolved (l1 ++ l2)%list,
     snd (loadGlossary client l2 (snd (loadGlossary client l1 w)))).
Proof.
  rewrite !loadGlossary_resolves. simpl. now rewrite enriched_app.
Qed.

(** X4: when every fetch is rejected, [loadGlossary] still resolves, no
    entry object changes at all, and the console gets one line per
    dynamic entry of the catalog, in catalog order, each naming the
    entry's model. *)
Theorem loadGlossary_total_outage (client : RemoteClient)
    (glossary : list Ref) (w : World) :
  fetches_all_fail client ->
  exists w',
    loadGlossary client glossary w = (Resolved glossary, w')
    /\ (forall r, heap w' r = heap w r)
    /\ map fst (console w')
       = (map fst (console w)
            ++ map (fun r => fetch_message (heap w r))
                 (dynamic_entries (heap w) glossary))%list.
Proof.
  intros Hfail. exists (enriched client glossary w).
  split; [apply loadGlossary_resolves|].
  revert w. induction glossary as [|x rest IH]; intros w.
  - simpl. split; [reflexivity | now rewrite app_nil_r].
  - rewrite enriched_cons. unfold dynamic_entries. simpl filter.
    destruct (is_dynamic (heap w x)) eqn:Hd.
    + destruct (Hfail (trace w) (model (heap w x)) utc) as [error Hrej].
      assert (Hstep : enriched client [x] w = after_failure x error w).
      { unfold enriched. simpl. unfold bind.
        now rewrite (enrich_entry_rejected client x w error Hd Hrej). }
      rewrite Hstep.
      destruct (IH (after_failure x error w)) as [Hheap Hcons].
      split; [exact Hheap|].
      rewrite Hcons. simpl console. rewrite map_app, <- app_assoc.
      reflexivity.
    + assert (Hstep : enriched client [x] w = w).
      { unfold enriched. simpl. unfold bind.
        now rewrite (enrich_entry_static client x w Hd). }
      rewrite Hstep. apply IH.
Qed.

Lemma loadGlossary_total_outage_witness :
  exists w',
    loadGlossary failing_client [2; 0; 1] sample_world = (Resolved [2; 0; 1], w')
    /\ (forall r, heap w' r = heap sample_world r)
    /\ map fst (console w')
       = (map fst (console sample_world)
            ++ map (fun r => fetch_message (heap sample_world r))
                 (dynamic_entries (heap sample_world) [2; 0; 1]))%list.
Proof.
  apply (loadGlossary_total_outage failing_client [2; 0; 1] sample_world).
  intros t m o. exists network_error. reflexivity.
Defined.

(** X5: when every fetch resolves, [loadGlossary] logs nothing and every
    dynamic entry of the catalog has [fields] afterwards. *)
Theorem loadGlossary_all_resolved (client : RemoteClient)
    (glossary : list Ref) (w : World) :
  fetches_all_resolve client ->
  console (snd (loadGlossary client glossary w)) = console w
  /\ (forall r, In r glossary ->
                fields_source (heap w r) = Some "dynamic" ->
                fields (heap (snd (loadGlossary client glossary w)) r) <> None).
Proof.
  intros Hok. rewrite loadGlossary_resolves. simpl.
  assert (Hstep : forall x w0,
             is_dynamic (heap w0 x) = true ->
             exists res, enriched client [x] w0 = after_success x res w0).
  { intros x w0 Hd.
    destruct (Hok (trace w0) (model (heap w0 x)) utc) as [res Hres].
    exists res. unfold enriched. simpl. unfold bind.
    now rewrite (enrich_entry_resolved client x w0 res Hd Hres). }
  revert w. induction glossary as [|x rest IH]; intros w.
  - split; [reflexivity | intros r []].
  - rewrite enriched_cons.
    destruct (IH (enriched client [x] w)) as [Hcons Hfields]. split.
    + rewrite Hcons. destruct (is_dynamic (heap w x)) eqn:Hd.
      * destruct (Hstep x w Hd) as [res ->]. reflexivity.
      * unfold enriched. simpl. unfold bind.
        now rewrite (enrich_entry_static client x w Hd).
    + intros r [->|Hin] Hdyn.
      * apply enriched_fields_present.
        apply is_dynamic_true in Hdyn.
        destruct (Hstep r w Hdyn) as [res ->]. simpl.
        rewrite store_set_same. simpl. discriminate.
      * apply Hfields; [exact Hin|]. now rewrite step_fields_source.
Qed.

Lemma loadGlossary_all_resolved_witness :
  console (snd (loadGlossary healthy_client [2; 0; 1] sample_world))
  = console sample_world
  /\ (forall r, In r [2; 0; 1] ->
                fields_source (heap sample_world r) = Some "dynamic" ->
                fields (heap (snd (loadGlossary healthy_client [2; 0; 1]
                                     sample_world)) r) <> None).
Proof.
  apply (loadGlossary_all_resolved healthy_client [2; 0; 1] sample_world).
  intros t m o. simpl. destruct (String.eqb m "res.partner"); eexists; reflexivity.
Defined.

(** X6: [loadGlossary] only ever appends to the console, at most one line
    per dynamic entry of the catalog, and each line it adds carries the
    message for the model of a dynamic entry of the catalog. *)
Theorem loadGlossary_console_lines (client : RemoteClient)
    (glossary : list Ref) (w : World) :
  exists more,
    console (snd (loadGlossary client glossary w)) = (console w ++ more)%list
    /\ length more <= length (dynamic_entries (heap w) glossary)
    /\ Forall (fun line =>
                 exists r, In r glossary
                           /\ is_dynamic (heap w r) = true
                           /\ fst line = fetch_message (heap w r)) more.
Proof.
  rewrite loadGlossary_resolves. simpl.
  revert w. induction glossary as [|x rest IH]; intros w.
  - exists []. simpl. rewrite app_nil_r. repeat split; auto.
  - rewrite enriched_cons.
    destruct (IH (enriched client [x] w)) as [m2 [Hc2 [Hlen2 Hall2]]].
    destruct (step_console_lines client x w) as [m1 [Hc1 Hm1]].
    rewrite dynamic_entries_step in Hlen2.
    exists (m1 ++ m2)%list. split; [now rewrite Hc2, Hc1, app_assoc|].
    assert (Hall2' : Forall (fun line =>
                 exists r, In r (x :: rest)
                           /\ is_dynamic (heap w r) = true
                           /\ fst line = fetch_message (heap w r)) m2).
    { eapply Forall_impl; [|exact Hall2]. intros line [r [Hin [Hd Hmsg]]].
      exists r. rewrite step_is_dynamic in Hd.
      rewrite fetch_message_step in Hmsg. split; [now right | now split]. }
    unfold dynamic_entries in *. simpl filter.
    destruct Hm1 as [->|[Hd [error ->]]].
    + split; [|exact Hall2']. simpl.
      destruct (is_dynamic (heap w x)); simpl; lia.
    + rewrite Hd. split; [simpl; lia|].
      constructor; [|exact Hall2'].
      exists x. split; [now left | now split].
Qed.

(* ================================================================== *)
(** ** Further properties of resource publication *)
(* ================================================================== *)

Lemma registration_of_enriched (client : RemoteClient) (glossary : list Ref)
    (w : World) (r : Ref) :
  registration_of (heap (enriched client glossary w)) r
  = registration_of (heap w) r.
Proof.
  unfold registration_of.
  destruct (enriched_only_fields client glossary w r) as [H|[f H]];
    rewrite H; reflexivity.
Qed.

(** The outcome of [loadGlossaries] and what the registrar holds after
    it, from the entries as the caller supplied them. *)
Lemma loadGlossaries_outcome (client : RemoteClient) (refs : list Ref)
    (w : World) :
  let new := map (registration_of (heap w)) refs in
  fst (loadGlossaries client (Some refs) w)
  = fst (register_run (registered w) new)
  /\ registered (snd (loadGlossaries client (Some refs) w))
     = snd (register_run (registered w) new).
Proof.
  intros new. rewrite loadGlossaries_run. simpl.
  assert (Hnew : map (registration_of (heap (enriched client refs w))) refs
                 = new).
  { apply map_ext. intros r. apply registration_of_enriched. }
  rewrite Hnew. split; reflexivity.
Qed.

Lemma register_run_head_held (regs rest : list Registration)
    (g : Registration) :
  holds_uri (snd (register_run regs (g :: rest))) (reg_uri g) = true.
Proof.
  simpl. destruct (holds_uri regs (reg_uri g)) eqn:Hheld; simpl.
  - exact Hheld.
  - destruct (register_run_extends (regs ++ [g])%list rest)
      as [done [more [H _]]].
    rewrite H, !holds_uri_app. simpl. rewrite String.eqb_refl.
    now rewrite orb_true_r.
Qed.

(** X7: whether [loadGlossaries] resolves and what it registers do not
    depend on the remote: name, URI and descriptor of every registration
    come from the entry as the caller supplied it, so two remotes lead to
    the same outcome and the same registrations. *)
Theorem registrations_independent_of_remote (client client' : RemoteClient)
    (refs : list Ref) (w : World) :
  fst (loadGlossaries client (Some refs) w)
  = fst (loadGlossaries client' (Some refs) w)
  /\ registered (snd (loadGlossaries client (Some refs) w))
     = registered (snd (loadGlossaries client' (Some refs) w)).
Proof.
  destruct (loadGlossaries_outcome client refs w) as [H1 H2].
  destruct (loadGlossaries_outcome client' refs w) as [H1' H2'].
  split; congruence.
Qed.

(** X8: [loadGlossaries] resolves exactly when the models of the catalog
    are pairwise distinct and the server holds none of their URIs; it
    removes no duplicate and skips no held URI. *)
Theorem loadGlossaries_resolves_iff (client : RemoteClient)
    (refs : list Ref) (w : World) :
  fst (loadGlossaries client (Some refs) w) = Resolved tt
  <-> NoDup (map (fun r => model (heap w r)) refs)
      /\ (forall r, In r refs ->
                    ~ In ("glossary://" ++ model (heap w r))
                         (map reg_uri (registered w))).
Proof.
  destruct (loadGlossaries_outcome client refs w) as [Hout _].
  rewrite Hout, register_run_resolves_iff.
  assert (Huri : map reg_uri (map (registration_of (heap w)) refs)
                 = map (fun s => "glossary://" ++ s)
                     (map (fun r => model (heap w r)) refs)).
  { now rewrite !map_map. }
  rewrite Huri. split; intros [Hnd Hfree]; split.
  - now apply NoDup_map_inv in Hnd.
  - intros r Hin. apply holds_uri_false_iff.
    apply (Hfree (registration_of (heap w) r)). now apply in_map.
  - now apply prefixed_NoDup.
  - intros g Hin. apply in_map_iff in Hin. destruct Hin as [r [<- Hin]].
    apply holds_uri_false_iff. now apply Hfree.
Qed.

(** X9: a second [loadGlossaries] with the same non-empty catalog always
    rejects at its first entry, with the registrar's error for that
    entry's URI, and registers nothing. *)
Theorem loadGlossaries_twice (client : RemoteClient) (x : Ref)
    (rest : list Ref) (w : World) :
  let refs := x :: rest in
  let once := snd (loadGlossaries client (Some refs) w) in
  fst (loadGlossaries client (Some refs) once)
  = Rejected (already_registered ("glossary://" ++ model (heap w x)))
  /\ registered (snd (loadGlossaries client (Some refs) once))
     = registered once.
Proof.
  intros refs once.
  destruct (loadGlossaries_outcome client refs once) as [Hout Hreg].
  rewrite Hout, Hreg.
  assert (Hheap : forall r, registration_of (heap once) r
                            = registration_of (heap w) r).
  { intros r. unfold once. rewrite loadGlossaries_run. simpl.
    apply registration_of_enriched. }
  assert (Hheld : holds_uri (registered once)
                    ("glossary://" ++ model (heap w x)) = true).
  { unfold once.
    destruct (loadGlossaries_outcome client refs w) as [_ Hreg1].
    rewrite Hreg1. unfold refs. simpl map.
    apply (register_run_head_held (registered w)
             (map (registration_of (heap w)) rest)
             (registration_of (heap w) x)). }
  unfold refs. simpl map. rewrite Hheap.
  cbn [register_run reg_uri registration_of]. rewrite Hheld.
  split; reflexivity.
Qed.

(** X10: on entries, remote calls and console [loadGlossaries] does what
    [loadGlossary] does and nothing more, also when a registration is
    refused; without a catalog it does nothing at all. *)
Theorem loadGlossaries_enriches_as_loadGlossary (client : RemoteClient)
    (refs : list Ref) (w : World) :
  let published := snd (loadGlossaries client (Some refs) w) in
  let loaded := snd (loadGlossary client refs w) in
  heap published = heap loaded
  /\ trace published = trace loaded
  /\ console published = console loaded
  /\ loadGlossaries client None w = (Resolved tt, w).
Proof.
  intros published loaded. unfold published, loaded.
  rewrite loadGlossaries_run, loadGlossary_resolves. simpl.
  repeat split.
Qed.

(** X23: [loadGlossaries] only extends what the registrar holds, and a
    registrar whose URIs are pairwise distinct still has pairwise distinct
    URIs afterwards, whether the call resolves or rejects. *)
Theorem loadGlossaries_keeps_uris_distinct (client : RemoteClient)
    (glossary : option (list Ref)) (w : World) :
  NoDup (map reg_uri (registered w)) ->
  NoDup (map reg_uri (registered (snd (loadGlossaries client glossary w))))
  /\ exists added,
       registered (snd (loadGlossaries client glossary w))
       = (registered w ++ added)%list.
Proof.
  intros Hnd. destruct glossary as [refs|].
  - destruct (loadGlossaries_outcome client refs w) as [_ Hreg].
    rewrite Hreg. split; [now apply register_run_distinct|].
    destruct (register_run_extends (registered w)
                (map (registration_of (heap w)) refs))
      as [done [more [H _]]].
    now exists done.
  - simpl. split; [exact Hnd|]. exists []. now rewrite app_nil_r.
Qed.

Lemma loadGlossaries_keeps_uris_distinct_witness :
  NoDup (map reg_uri
           (registered (snd (loadGlossaries flaky_client (Some [0; 1; 0; 2])
                               sample_world))))
  /\ exists added,
       registered (snd (loadGlossaries flaky_client (Some [0; 1; 0; 2])
                          sample_world))
       = (registered sample_world ++ added)%list.
Proof.
  apply (loadGlossaries_keeps_uris_distinct flaky_client (Some [0; 1; 0; 2])
           sample_world).
  simpl. constructor.
Defined.

(* ================================================================== *)
(** ** Further properties of the lookup handlers *)
(* ================================================================== *)

Lemma partners_domain_none_iff (input : PartnersInput) :
  partners_domain input = None
  <-> truthy_num (partners_id input) = None
      /\ truthy_str (partners_email input) = None
      /\ truthy_str (partners_name input) = None.
Proof.
  unfold partners_domain.
  destruct (truthy_num (partners_id input)),
           (truthy_str (partners_email input)),
           (truthy_str (partners_name input));
    split; intros H; try discriminate H; try (repeat split; reflexivity);
    destruct H as [H1 [H2 H3]]; discriminate.
Qed.

Lemma toLowerCase_empty_iff (s : string) :
  toLowerCase s = EmptyString <-> s = EmptyString.
Proof. destruct s; simpl; split; intros H; (reflexivity || discriminate H). Qed.

(** X11: [get_partners] issues at most one remote call, and it issues
    none exactly when [id], [email] and [name] are all missing or falsy. *)
Theorem get_partners_queries_iff (client : RemoteClient)
    (input : PartnersInput) (w : World) :
  length (trace (snd (get_partners client input w))) <= S (length (trace w))
  /\ (trace (snd (get_partners client input w)) = trace w
      <-> truthy_num (partners_id input) = None
          /\ truthy_str (partners_email input) = None
          /\ truthy_str (partners_name input) = None).
Proof.
  rewrite <- partners_domain_none_iff.
  destruct (partners_domain input) as [domain|] eqn:Hdom.
  - rewrite (get_partners_query client input domain w Hdom).
    rewrite length_app. simpl. split; [lia|].
    split; [|discriminate].
    intros Heq. apply (f_equal (@length RemoteCall)) in Heq.
    rewrite length_app in Heq. simpl in Heq. lia.
  - unfold get_partners. rewrite Hdom. simpl. split; [lia|].
    split; reflexivity.
Qed.

(** X12: with a non-empty [email] and neither a truthy [id] nor a truthy
    [name], the filter of [get_partners] is [[["email","=",lower]]] with
    the email in lower case, sent in one query. *)
Theorem partner_email_only (client : RemoteClient) (id : option Z)
    (email : string) (name : option string) (w : World) :
  truthy_num id = None ->
  email <> EmptyString ->
  truthy_str name = None ->
  let input := {| partners_id := id; partners_email := Some email;
                  partners_name := name |} in
  let domain := [VArr [VStr "email"; VStr "="; VStr (toLowerCase email)]] in
  partners_domain input = Some domain
  /\ trace (snd (get_partners client input w))
     = (trace w ++ [call_search_read "res.partner" domain singapore])%list.
Proof.
  intros Hid He Hn input domain.
  assert (Hdom : partners_domain input = Some domain).
  { unfold partners_domain, input, domain.
    cbn [partners_id partners_email partners_name].
    now rewrite Hid, Hn, (truthy_str_nonempty email He). }
  split; [exact Hdom | now apply get_partners_query].
Qed.

Lemma partner_email_only_witness :
  let input := {| partners_id := Some 0%Z; partners_email := Some "Bob@Example.com";
                  partners_name := Some EmptyString |} in
  let domain := [VArr [VStr "email"; VStr "=";
                       VStr (toLowerCase "Bob@Example.com")]] in
  partners_domain input = Some domain
  /\ trace (snd (get_partners healthy_client input sample_world))
     = (trace sample_world
          ++ [call_search_read "res.partner" domain singapore])%list.
Proof.
  apply (partner_email_only healthy_client (Some 0%Z) "Bob@Example.com"
           (Some EmptyString) sample_world);
    [reflexivity | discriminate | reflexivity].
Defined.

(** X13: with a non-empty [name] and neither a truthy [id] nor a truthy
    [email], the filter of [get_partners] is [[["name","ilike",name]]]
    with the name as given, sent in one query. *)
Theorem partner_name_only (client : RemoteClient) (id : option Z)
    (email : option string) (name : string) (w : World) :
  truthy_num id = None ->
  truthy_str email = None ->
  name <> EmptyString ->
  let input := {| partners_id := id; partners_email := email;
                  partners_name := Some name |} in
  let domain := [VArr [VStr "name"; VStr "ilike"; VStr name]] in
  partners_domain input = Some domain
  /\ trace (snd (get_partners client input w))
     = (trace w ++ [call_search_read "res.partner" domain singapore])%list.
Proof.
  intros Hid He Hn input domain.
  assert (Hdom : partners_domain input = Some domain).
  { unfold partners_domain, input, domain.
    cbn [partners_id partners_email partners_name].
    now rewrite Hid, He, (truthy_str_nonempty name Hn). }
  split; [exact Hdom | now apply get_partners_query].
Qed.

Lemma partner_name_only_witness :
  let input := {| partners_id := None; partners_email := Some EmptyString;
                  partners_name := Some "ACME" |} in
  let domain := [VArr [VStr "name"; VStr "ilike"; VStr "ACME"]] in
  partners_domain input = Some domain
  /\ trace (snd (get_partners healthy_client input sample_world))
     = (trace sample_world
          ++ [call_search_read "res.partner" domain singapore])%list.
Proof.
  apply (partner_name_only healthy_client None (Some EmptyString) "ACME"
           sample_world);
    [reflexivity | reflexivity | discriminate].
Defined.

(** X14: [get_partners] does not see the case of the email: two emails
    with the same lower-case form give the same run, whatever [id] and
    [name] are. *)
Theorem partner_email_case_insensitive (client : RemoteClient)
    (id : option Z) (email email' : string) (name : option string) :
  toLowerCase email = toLowerCase email' ->
  get_partners client {| partners_id := id; partners_email := Some email;
                         partners_name := name |}
  = get_partners client {| partners_id := id; partners_email := Some email';
                           partners_name := name |}.
Proof.
  intros Hlow.
  assert (Hdom : partners_domain {| partners_id := id;
                                    partners_email := Some email;
                                    partners_name := name |}
                 = partners_domain {| partners_id := id;
                                      partners_email := Some email';
                                      partners_name := name |}).
  { unfold partners_domain. cbn [partners_id partners_email partners_name].
    destruct email as [|c s], email' as [|c' s'].
    - reflexivity.
    - symmetry in Hlow. apply toLowerCase_empty_iff in Hlow. discriminate.
    - apply toLowerCase_empty_iff in Hlow. discriminate.
    - cbn [truthy_str]. rewrite Hlow. reflexivity. }
  unfold get_partners. now rewrite Hdom.
Qed.

Lemma partner_email_case_insensitive_witness :
  get_partners healthy_client
    {| partners_id := None; partners_email := Some "Bob@Example.COM";
       partners_name := Some "bob" |}
  = get_partners healthy_client
      {| partners_id := None; partners_email := Some "bob@example.com";
         partners_name := Some "bob" |}.
Proof.
  apply (partner_email_case_insensitive healthy_client None "Bob@Example.COM"
           "bob@example.com" (Some "bob")).
  reflexivity.
Defined.

(** X15: the lookup handlers catch nothing: when the remote rejects the
    query with some reason, [get_companies] rejects with that reason, and
    so does [get_partners] whenever it queries (it still answers ["[]"]
    without a query when every input is missing or falsy). *)
Theorem lookup_rejection_propagates (client : RemoteClient) (w : World)
    (reason : Value) (companies : CompaniesInput) (partners : PartnersInput) :
  (forall m d o, reply_search_read client (trace w) m d o = Rejected reason) ->
  fst (get_companies client companies w) = Rejected reason
  /\ match partners_domain partners with
     | Some _ => fst (get_partners client partners w) = Rejected reason
     | None =>
         get_partners client partners w = (Resolved (text_block (Some "[]")), w)
     end.
Proof.
  intros Hrej. split.
  - unfold get_companies, bind, search_read. now rewrite Hrej.
  - unfold get_partners. destruct (partners_domain partners) as [domain|].
    + unfold bind, search_read. now rewrite Hrej.
    + reflexivity.
Qed.

Lemma lookup_rejection_propagates_witness :
  fst (get_companies failing_client
         {| companies_name := Some "Acme"; companies_id := None |} sample_world)
  = Rejected network_error
  /\ match partners_domain {| partners_id := Some 7%Z; partners_email := None;
                              partners_name := None |} with
     | Some _ =>
         fst (get_partners failing_client
                {| partners_id := Some 7%Z; partners_email := None;
                   partners_name := None |} sample_world)
         = Rejected network_error
     | None =>
         get_partners failing_client
           {| partners_id := Some 7%Z; partners_email := None;
              partners_name := None |} sample_world
         = (Resolved (text_block (Some "[]")), sample_world)
     end.
Proof.
  apply (lookup_rejection_propagates failing_client sample_world network_error).
  reflexivity.
Defined.

(** X16: when the remote resolves a query without a result, both lookup
    handlers answer the text ["[]"], for every input. *)
Theorem lookup_missing_result_is_empty_list (client : RemoteClient)
    (w : World) (companies : CompaniesInput) (partners : PartnersInput) :
  (forall m d o,
     reply_search_read client (trace w) m d o
     = Resolved {| records_result := None |}) ->
  fst (get_companies client companies w) = Resolved (text_block (Some "[]"))
  /\ fst (get_partners client partners w) = Resolved (text_block (Some "[]")).
Proof.
  intros Hres. split.
  - unfold get_companies, bind, search_read. now rewrite Hres.
  - unfold get_partners. destruct (partners_domain partners) as [domain|].
    + unfold bind, search_read. now rewrite Hres.
    + reflexivity.
Qed.

Lemma lookup_missing_result_is_empty_list_witness :
  fst (get_companies flaky_client
         {| companies_name := None; companies_id := Some 3%Z |} sample_world)
  = Resolved (text_block (Some "[]"))
  /\ fst (get_partners flaky_client
            {| partners_id := None; partners_email := None;
               partners_name := Some "Acme" |} sample_world)
     = Resolved (text_block (Some "[]")).
Proof.
  apply (lookup_missing_result_is_empty_list flaky_client sample_world).
  reflexivity.
Defined.

(** X17: every result the three handlers resolve with is one content
    block of type ["text"] whose text is a string, never [undefined]. *)
Theorem tool_text_always_defined (client : RemoteClient)
    (cfg : OdxProxyClientInfo) (companies : CompaniesInput)
    (partners : PartnersInput) (w : World) :
  let well_formed (outcome : Outcome ToolResult) :=
    match outcome with
    | Resolved result =>
        exists t, content result = [{| type := "text"; text := Some t |}]
    | Rejected _ => True
    end in
  well_formed (fst (odx_config cfg w))
  /\ well_formed (fst (get_companies client companies w))
  /\ well_formed (fst (get_partners client partners w)).
Proof.
  intros well_formed. unfold well_formed. repeat split.
  - simpl. eexists. reflexivity.
  - unfold get_companies, bind, search_read.
    destruct (reply_search_read client (trace w) "res.company" _ _);
      simpl; [eexists; reflexivity | exact I].
  - unfold get_partners. destruct (partners_domain partners) as [domain|].
    + unfold bind, search_read.
      destruct (reply_search_read client (trace w) "res.partner" _ _);
        simpl; [eexists; reflexivity | exact I].
    + simpl. eexists. reflexivity.
Qed.

(** X18: when no gateway URL is configured, the text of [odx_config] has
    no [gateway] member at all: it is the serialisation of the object with
    the members [url], [database] and [userUid] only. *)
Theorem odx_config_omits_missing_gateway (u d : string) (uid : Z)
    (key1 key2 : string) (w : World) :
  odx_config {| instance := {| url := u; user_id := uid; db := d;
                               api_key := key1 |};
                odx_api_key := key2; gateway_url := None |} w
  = (Resolved
       (text_block
          (JSON_stringify
             (VObj [("url", VStr u); ("database", VStr d);
                    ("userUid", VNum uid)]) 2)), w).
Proof. reflexivity. Qed.

(** X19: [get_companies] with a non-empty [name] and a non-zero [id]
    sends both terms, the name term first; with only one of them it sends
    that term alone. *)
Theorem companies_filter_terms (client : RemoteClient) (name : string)
    (id : Z) (w : World) :
  name <> EmptyString ->
  id <> 0%Z ->
  let name_term := VArr [VStr "name"; VStr "ilike"; VStr name] in
  let id_term := VArr [VStr "id"; VStr "="; VNum id] in
  let sent input := trace (snd (get_companies client input w)) in
  let query terms :=
    (trace w ++ [call_search_read "res.company" [VArr terms] singapore])%list in
  sent {| companies_name := Some name; companies_id := Some id |}
  = query [name_term; id_term]
  /\ sent {| companies_name := Some name; companies_id := None |}
     = query [name_term]
  /\ sent {| companies_name := None; companies_id := Some id |}
     = query [id_term].
Proof.
  intros Hn Hid name_term id_term sent query. unfold sent, query.
  rewrite !get_companies_query. unfold companies_domain.
  cbn [companies_name companies_id].
  rewrite (truthy_str_nonempty name Hn), (truthy_num_nonzero id Hid).
  repeat split.
Qed.

Lemma companies_filter_terms_witness :
  let name_term := VArr [VStr "name"; VStr "ilike"; VStr "Terra"] in
  let id_term := VArr [VStr "id"; VStr "="; VNum 3] in
  let sent input := trace (snd (get_companies healthy_client input sample_world)) in
  let query terms :=
    (trace sample_world
       ++ [call_search_read "res.company" [VArr terms] singapore])%list in
  sent {| companies_name := Some "Terra"; companies_id := Some 3%Z |}
  = query [name_term; id_term]
  /\ sent {| companies_name := Some "Terra"; companies_id := None |}
     = query [name_term]
  /\ sent {| companies_name := None; companies_id := Some 3%Z |}
     = query [id_term].
Proof.
  apply (companies_filter_terms healthy_client "Terra" 3 sample_world);
    [discriminate | lia].
Defined.

(** X20: the three handlers leave entries, console and registrations as
    they are, whatever the remote replies; [get_companies] always issues
    exactly one query and [odx_config] none. *)
Theorem handlers_frame (client : RemoteClient) (cfg : OdxProxyClientInfo)
    (companies : CompaniesInput) (partners : PartnersInput) (w : World) :
  let untouched (w' : World) :=
    heap w' = heap w /\ console w' = console w
    /\ registered w' = registered w in
  untouched (snd (odx_config cfg w))
  /\ untouched (snd (get_companies client companies w))
  /\ untouched (snd (get_partners client partners w))
  /\ trace (snd (odx_config cfg w)) = trace w
  /\ length (trace (snd (get_companies client companies w)))
     = S (length (trace w)).
Proof.
  intros untouched. unfold untouched.
  assert (Hc : untouched (snd (get_companies client companies w))).
  { unfold untouched, get_companies, bind, search_read.
    destruct (reply_search_read client (trace w) "res.company" _ _);
      simpl; repeat split. }
  assert (Hp : untouched (snd (get_partners client partners w))).
  { unfold untouched, get_partners.
    destruct (partners_domain partners) as [domain|].
    - unfold bind, search_read.
      destruct (reply_search_read client (trace w) "res.partner" _ _);
        simpl; repeat split.
    - simpl. repeat split. }
  split; [simpl; repeat split|]. split; [exact Hc|]. split; [exact Hp|].
  split; [reflexivity|].
  rewrite get_companies_query, length_app. simpl. lia.
Qed.

(* ================================================================== *)
(** ** Properties of partner creation *)
(* ================================================================== *)

(** The payload for the input [{name: "Bob"}]. *)
Example create_partner_sample :
  partner_values {| new_name := "Bob"; new_email := None; new_phone := None;
                    new_is_company := None |}
  = VObj [("name", VStr "Bob"); ("email", VBool false);
          ("phone", VBool false); ("is_company", VBool false)].
Proof. reflexivity. Qed.

(** X21: [create_partner] issues exactly one [create] call, on
    [res.partner] with the record wrapped twice and the UTC context; it
    answers the text ["true"] whatever the remote resolves with, and
    rejects with the remote's reason when the call is rejected. *)
Theorem create_partner_outcome (reply : CreateReply)
    (input : CreatePartnerInput) (calls : list ClientCall) :
  let args := [VArr [partner_values input]] in
  snd (create_partner reply input calls)
  = (calls ++ [create_call "res.partner" args utc])%list
  /\ (forall v, reply calls "res.partner" args utc = Resolved v ->
                fst (create_partner reply input calls)
                = Resolved (text_block (Some "true")))
  /\ (forall reason, reply calls "res.partner" args utc = Rejected reason ->
                     fst (create_partner reply input calls) = Rejected reason).
Proof.
  intros args. unfold create_partner, create. fold args.
  destruct (reply calls "res.partner" args utc) as [v|reason] eqn:Hr;
    simpl; repeat split; intros ? H; inversion H; reflexivity.
Qed.

(** X22: the record [create_partner] sends always has the members [name],
    [email], [phone], [is_company], in this order and none of them
    [undefined]: an optional input that is missing becomes [false], and
    one that is given is sent as given, the empty string included. *)
Theorem create_partner_payload (input : CreatePartnerInput) :
  exists e p c,
    partner_values input
    = VObj [("name", VStr (new_name input)); ("email", e); ("phone", p);
            ("is_company", c)]
    /\ e <> VUndefined /\ p <> VUndefined /\ c <> VUndefined
    /\ (new_email input = None -> e = VBool false)
    /\ (forall s, new_email input = Some s -> e = VStr s)
    /\ (new_phone input = None -> p = VBool false)
    /\ (forall s, new_phone input = Some s -> p = VStr s)
    /\ (new_is_company input = None -> c = VBool false)
    /\ (forall b, new_is_company input = Some b -> c = VBool b).
Proof.
  exists (str_or_false (new_email input)), (str_or_false (new_phone input)),
         (bool_or_false (new_is_company input)).
  split; [reflexivity|].
  destruct (new_email input), (new_phone input), (new_is_company input);
    simpl; repeat split; intros; try discriminate; congruence.
Qed.

(** Both outcomes on concrete remotes: the answer is ["true"] though the
    remote resolved with an object, and a refusal comes back as it is. *)
Example create_partner_accepted :
  create_partner accepting_create
    {| new_name := "Bob"; new_email := Some EmptyString; new_phone := None;
       new_is_company := Some true |} []
  = (Resolved (text_block (Some "true")),
     [create_call "res.partner"
        [VArr [VObj [("name", VStr "Bob"); ("email", VStr EmptyString);
                     ("phone", VBool false); ("is_company", VBool true)]]]
        utc]).
Proof. reflexivity. Qed.

Example create_partner_refused :
  fst (create_partner refusing_create
         {| new_name := "Bob"; new_email := None; new_phone := None;
            new_is_company := None |} [])
  = Rejected network_error.
Proof. reflexivity. Qed.
